(** * InboxIntel: thread assembly, analysis-preserving merge, normalizer
      and the Gemini client, embedded from the TypeScript sources

    Sources embedded here:
    - [src/App.tsx]: [threads] (the [useMemo] body), [mergeEmails],
      [handleLoadCache], [handleSync], [handleRunAI], [selectedThread];
    - [src/services/gmailBackend.ts]: [mapBackendMessageToEmail],
      [checkBackendAuthStatus], [logoutFromBackend],
      [fetchEmailsFromBackend], [syncEmailsWithBackend],
      [searchEmailsOnBackend];
    - the Gemini service ([getAI], [analyzeEmailBatch],
      [generateSmartReply]);
    - the local store ([db.saveEmails], [db.getEmails], [db.clear]);
    - [src/vite.config.ts]: the value defined for [process.env.API_KEY].

    JavaScript strings are sequences of UTF-16 code units; they are modelled
    as [list N].  A JS [Map] whose iteration order is never observed is a
    [gmap]; the [Map] of [threads], whose [values()] are iterated in
    insertion order, is an association list. *)

From Stdlib Require Import ZArith List Sorting.Sorted Strings.String Strings.Ascii.
From stdpp Require Import base option list gmap sorting.

Local Open Scope Z_scope.

(** ** JavaScript strings *)

Abbreviation jsstring := (list N).

(** An ASCII literal of the source as a sequence of code units. *)
Definition lit (s : string) : jsstring :=
  map N_of_ascii (list_ascii_of_string s).

(** ** Data model *)

(** Modelled from the spec: [types.ts] is not among the sources; the
    enumerations are the ones of the response schema in
    [analyzeEmailBatch]. *)
Inductive Priority := HIGH | MEDIUM | LOW.

(** Modelled from the spec: see [Priority]. *)
Inductive Category := WORK | PERSONAL | NEWSLETTER | FINANCE | SPAM_LIKELY.

(** The object literal built for every item in [analyzeEmailBatch]. *)
Record AIAnalysis := mkAIAnalysis {
  summary : jsstring;
  priority : Priority;
  urgencyScore : Z;
  category : Category;
  actionItems : list jsstring;
  sentiment : jsstring
}.

(** [Omit<Email, 'analysis'>]: the fields of the object literal returned
    by [mapBackendMessageToEmail]. *)
Record RawEmail := mkRawEmail {
  id : jsstring;
  threadId : option jsstring;
  sender : jsstring;
  senderName : jsstring;
  subject : jsstring;
  snippet : jsstring;
  body : jsstring;
  receivedAt : jsstring;
  read : bool
}.

(** A truthy value that is not an analysis object and that a read of the
    result object of [analyzeEmailBatch] can give: a function of
    [Object.prototype], [Object.prototype] itself, or a field of an
    analysis object that has become the prototype of the result object
    (a string that is not empty, a number that is not zero, a priority,
    a category, an array). *)
Inductive Foreign :=
| Builtin (name : jsstring)
| ObjectPrototype
| ForeignString (c : N) (s : jsstring)
| ForeignNumber (negative : bool) (magnitude : positive)
| ForeignPriority (p : Priority)
| ForeignCategory (c : Category)
| ForeignArray (l : list jsstring).

(** What the property [analysis] of an email holds when it is set: the
    type says an [AIAnalysis]; [handleRunAI] stores whatever truthy value
    [results[email.id]] gives.  Every value of this type is truthy. *)
Inductive AnalysisValue :=
| IsAnalysis (a : AIAnalysis)
| NotAnalysis (v : Foreign).

(** [Email]: the fields of [RawEmail] and the optional [analysis]. *)
Record Email := mkEmail {
  fields :> RawEmail;
  analysis : option AnalysisValue
}.

(** [BackendMessage] of [gmailBackend.ts]. *)
Module BackendMessage.
Record t := mk {
  id : jsstring;
  threadId : option jsstring;
  snippet : option jsstring;
  subject : option jsstring;
  from : option jsstring;
  date : option jsstring;
  body : option jsstring
}.
End BackendMessage.

(** ** Merge reconciler ([mergeEmails], App.tsx) *)

(** [new Map(emails.map(e => [e.id, e]))]: the entries are set from left
    to right, so a later record with the same [id] replaces an earlier
    one. *)
Definition currentMap (emails : list Email) : gmap jsstring Email :=
  foldl (fun m (e : Email) => <[id e := e]> m) ∅ emails.

(** The callback of [newRawEmails.map]: [existing?.analysis] is truthy
    exactly when [existing] is found and carries an analysis object. *)
Definition mergeOne (m : gmap jsstring Email) (raw : RawEmail) : Email :=
  match m !! id raw ≫= analysis with
  | Some a => {| fields := raw; analysis := Some a |}
  | None => {| fields := raw; analysis := None |}
  end.

(** [mergeEmails]; [emails] is the state the closure reads. *)
Definition mergeEmails (emails : list Email) (newRawEmails : list RawEmail)
  : list Email :=
  mergeOne (currentMap emails) <$> newRawEmails.

(** ** Message normalizer ([mapBackendMessageToEmail], gmailBackend.ts) *)

(** Code units compared by the source: [<], [>] and the double quote. *)
Definition LT_SIGN : N := 60%N.
Definition GT_SIGN : N := 62%N.
Definition DQUOTE : N := 34%N.

(** ECMAScript [LineTerminator]: LF, CR, LS, PS; [.] of a regular
    expression without the [s] flag matches every other code unit. *)
Definition isLineTerminator (c : N) : bool :=
  (c =? 10)%N || (c =? 13)%N || (c =? 8232)%N || (c =? 8233)%N.

(** ECMAScript [WhiteSpace] and [LineTerminator], the code units removed
    by [String.prototype.trim]. *)
Definition isWhiteSpace (c : N) : bool :=
  (c =? 9)%N || (c =? 11)%N || (c =? 12)%N || (c =? 32)%N || (c =? 160)%N
  || (c =? 5760)%N || ((8192 <=? c)%N && (c <=? 8202)%N)
  || (c =? 8239)%N || (c =? 8287)%N || (c =? 12288)%N || (c =? 65279)%N
  || isLineTerminator c.

Fixpoint trimStart (s : jsstring) : jsstring :=
  match s with
  | c :: s' => if isWhiteSpace c then trimStart s' else s
  | [] => []
  end.

Definition trimEnd (s : jsstring) : jsstring :=
  rev (trimStart (rev s)).

(** [s.trim()] *)
Definition trim (s : jsstring) : jsstring := trimEnd (trimStart s).

(** [replace] with the global pattern of one double quote and the empty
    replacement: every double quote is removed. *)
Definition stripQuotes (s : jsstring) : jsstring :=
  List.filter (fun c => negb (c =? DQUOTE)%N) s.

(** A backtracking matcher for a greedy capturing group of [.] repeated
    any number of times, followed by the rest [k] of the pattern: the
    longest run of [.] is tried first and given back one code unit at a
    time.  The result is the captured group and the result
    of [k]. *)
Fixpoint dotStar {A} (k : jsstring -> option A) (s : jsstring)
  : option (jsstring * A) :=
  match s with
  | c :: s' =>
      if isLineTerminator c then pair [] <$> k s
      else match dotStar k s' with
           | Some (g, a) => Some (c :: g, a)
           | None => pair [] <$> k s
           end
  | [] => pair [] <$> k []
  end.

(** One literal code unit followed by the rest of the pattern. *)
Definition char {A} (c : N) (k : jsstring -> option A) (s : jsstring)
  : option A :=
  match s with
  | c' :: s' => if (c' =? c)%N then k s' else None
  | [] => None
  end.

(** The pattern of [msg.from.match], which is group, [<], group, [>],
    anchored at the start of [s]: the two groups. *)
Definition matchHere (s : jsstring) : option (jsstring * jsstring) :=
  match dotStar (char LT_SIGN (dotStar (char GT_SIGN (fun _ => Some tt)))) s with
  | Some (g1, (g2, _)) => Some (g1, g2)
  | None => None
  end.

(** [msg.from.match] with that pattern: the start positions are tried
    from left to right; the result is ([match[1]], [match[2]]). *)
Fixpoint fromMatch (s : jsstring) : option (jsstring * jsstring) :=
  match matchHere s with
  | Some r => Some r
  | None => match s with
            | _ :: s' => fromMatch s'
            | [] => None
            end
  end.

(** [o || d] for an optional string: [undefined] and the empty string are
    falsy. *)
Definition strOr (o : option jsstring) (d : jsstring) : jsstring :=
  match o with
  | Some (c :: s) => c :: s
  | _ => d
  end.

(** The sender pair ([senderName], [senderEmail]) computed from
    [msg.from]. *)
Definition parseSender (from : option jsstring) : jsstring * jsstring :=
  match from with
  | Some (c :: f) =>
      match fromMatch (c :: f) with
      | Some (g1, g2) => (stripQuotes (trim g1), trim g2)
      | None => (c :: f, c :: f)
      end
  | _ => (lit "Unknown", lit "unknown@example.com")
  end.

(** [mapBackendMessageToEmail]; [now] is [new Date().toISOString()]. *)
Definition mapBackendMessageToEmail (now : jsstring) (msg : BackendMessage.t)
  : RawEmail :=
  let '(senderName, senderEmail) := parseSender (BackendMessage.from msg) in
  {| id := BackendMessage.id msg;
     threadId := BackendMessage.threadId msg;
     sender := senderEmail;
     senderName := senderName;
     subject := strOr (BackendMessage.subject msg) (lit "(No Subject)");
     snippet := strOr (BackendMessage.snippet msg) [];
     body := strOr (BackendMessage.body msg)
               (strOr (BackendMessage.snippet msg) []);
     receivedAt := strOr (BackendMessage.date msg) now;
     read := false |}.

(** ** Thrown values and completions *)

(** The [error] property read by the [catch] block of
    [analyzeEmailBatch]: [error.error.code] and [error.error.message]. *)
Record ApiErrorBody := mkApiErrorBody {
  code : option Z;
  message : option jsstring
}.

(** A thrown value: whether it is an [Error] instance, its own [message],
    and its [error] property when it has one. *)
Record Thrown := mkThrown {
  instanceofError : bool;
  errorMessage : jsstring;
  error : option ApiErrorBody
}.

(** [new Error(msg)]; also the shape of a [TypeError] or [SyntaxError]. *)
Definition newError (msg : jsstring) : Thrown :=
  {| instanceofError := true; errorMessage := msg; error := None |}.

(** Reading a property of [undefined]. *)
Definition TypeError : Thrown :=
  newError (lit "Cannot read properties of undefined").

(** The outcome of evaluating code that may throw. *)
Inductive Completion (A : Type) :=
| Normal (a : A)
| Throw (e : Thrown).
Arguments Normal {A} a.
Arguments Throw {A} e.

#[global] Instance Completion_ret : MRet Completion := fun A a => Normal a.
#[global] Instance Completion_bind : MBind Completion := fun A B f c =>
  match c with
  | Normal a => f a
  | Throw e => Throw e
  end.

(** [try { body } catch (e) { handler e }] for code that does not touch
    the [World]. *)
Definition tryC {A} (body : Completion A) (handler : Thrown -> Completion A)
  : Completion A :=
  match body with
  | Normal a => Normal a
  | Throw e => handler e
  end.

(** ** [Array.prototype.sort] *)

Section Sort.
Context {A : Type}.
(** The comparator may throw, and may return [NaN] ([None]). *)
Variable comparefn : A -> A -> Completion (option Z).

(** The sort is stable, and a [NaN] from the comparator counts as [+0].
    For a consistent comparator the result is the stable sorted
    permutation whatever the engine's algorithm; it is computed here by
    insertion from the right.  For a comparator that is not consistent
    (here: a date that does not parse) ECMAScript leaves the order to the
    engine: the result is then one permutation among those an engine may
    give, and no statement below on the order of a result is made
    without [validDates]. *)
Fixpoint insertSorted (x : A) (l : list A) : Completion (list A) :=
  match l with
  | [] => Normal [x]
  | y :: l' =>
      v ← comparefn x y;
      if default 0 v <=? 0 then Normal (x :: l)
      else r ← insertSorted x l'; Normal (y :: r)
  end.

Fixpoint sort (l : list A) : Completion (list A) :=
  match l with
  | [] => Normal []
  | x :: l' => s ← sort l'; insertSorted x s
  end.
End Sort.

(** ** Thread assembler ([threads], App.tsx) *)

(** The [Map<string, Email[]>] of [threads]: [values()] iterates in the
    order in which the keys were first set. *)
Abbreviation Groups := (list (jsstring * list Email)).

Definition Map_has (k : jsstring) (g : Groups) : bool :=
  bool_decide (k ∈ g.*1).

Fixpoint Map_get (k : jsstring) (g : Groups) : option (list Email) :=
  match g with
  | [] => None
  | (k', v) :: g' => if decide (k' = k) then Some v else Map_get k g'
  end.

(** [set] keeps the position of a key that is present and appends a new
    one. *)
Fixpoint Map_set (k : jsstring) (v : list Email) (g : Groups) : Groups :=
  match g with
  | [] => [(k, v)]
  | (k', v') :: g' =>
      if decide (k' = k) then (k, v) :: g' else (k', v') :: Map_set k v g'
  end.

(** [e.threadId || e.id] *)
Definition threadKey (e : Email) : jsstring := strOr (threadId e) (id e).

(** The callback of [emails.forEach]; [push] changes the array held by
    the map. *)
Definition groupStep (groups : Groups) (e : Email) : Groups :=
  let tid := threadKey e in
  let groups1 := if Map_has tid groups then groups else Map_set tid [] groups in
  match Map_get tid groups1 with
  | Some arr => Map_set tid (arr ++ [e]) groups1
  | None => groups1
  end.

Definition groupEmails (emails : list Email) : Groups :=
  foldl groupStep [] emails.

(** [a - b] on numbers that may be [NaN]. *)
Definition numSub (a b : option Z) : option Z :=
  x ← a; y ← b; Some (x - y).

Section Threads.
(** [new Date(s).getTime()]: the time value, [None] for [NaN]. *)
Variable getTime : jsstring -> option Z.

(** The comparator of the sort inside a thread. *)
Definition compareReceivedAt (a b : Email) : Completion (option Z) :=
  Normal (numSub (getTime (receivedAt a)) (getTime (receivedAt b))).

(** [latest.analysis?.urgencyScore || 0]; a value that is not an
    analysis object has no [urgencyScore]. *)
Definition score (latest : Email) : Z :=
  match analysis latest with
  | Some (IsAnalysis a) => urgencyScore a
  | _ => 0
  end.

(** The comparator of the sort of the threads; [a[a.length - 1]] of an
    empty array is [undefined], whose [analysis] cannot be read. *)
Definition compareThreads (a b : list Email) : Completion (option Z) :=
  match last a, last b with
  | Some latestA, Some latestB =>
      let scoreA := score latestA in
      let scoreB := score latestB in
      if negb (scoreA =? scoreB) then Normal (Some (scoreB - scoreA))
      else Normal (numSub (getTime (receivedAt latestB))
                          (getTime (receivedAt latestA)))
  | _, _ => Throw TypeError
  end.

Definition threads (emails : list Email) : Completion (list (list Email)) :=
  let groups := groupEmails emails in
  threadList ← mapM (sort compareReceivedAt) groups.*2;
  sort compareThreads threadList.
End Threads.

(** ** Gemini service ([getAI], [analyzeEmailBatch], [generateSmartReply]) *)

(** [s.startsWith(sub)] and [s.includes(sub)] *)
Fixpoint startsWith (sub s : jsstring) : bool :=
  match sub, s with
  | [], _ => true
  | c :: sub', c' :: s' => (c =? c')%N && startsWith sub' s'
  | _ :: _, [] => false
  end.

Fixpoint includes (sub s : jsstring) : bool :=
  startsWith sub s ||
  match s with
  | [] => false
  | _ :: s' => includes sub s'
  end.

(** [replace] of every match of the tag pattern by one space: a match
    starts at [<], runs over every code unit that is not [>], and takes
    the closing [>] when there is one.  [inTag] says that the scan is
    inside a match. *)
Fixpoint stripTagsFrom (inTag : bool) (s : jsstring) : jsstring :=
  match s with
  | [] => []
  | c :: s' =>
      if inTag then
        if (c =? GT_SIGN)%N then stripTagsFrom false s'
        else stripTagsFrom true s'
      else if (c =? LT_SIGN)%N then 32%N :: stripTagsFrom true s'
      else c :: stripTagsFrom false s'
  end.

Definition stripTags (s : jsstring) : jsstring := stripTagsFrom false s.

(** The object built for every email inside the batch prompt. *)
Record EmailStub := mkEmailStub {
  stub_id : jsstring;
  stub_sender : jsstring;
  stub_subject : jsstring;
  stub_body : jsstring
}.

Definition toStub (e : RawEmail) : EmailStub :=
  {| stub_id := id e;
     stub_sender := sender e;
     stub_subject := subject e;
     stub_body := take (Z.to_nat 8000) (stripTags (body e)) |}.

(** What is sent to [ai.models.generateContent] (the model name is the
    same constant in both operations): the data interpolated into the
    prompt. *)
Inductive Request :=
| BatchRequest (stubs : list EmailStub)
| ReplyRequest (senderName subject cleanBody : jsstring).

(** [response.text] *)
Record Response := mkResponse { text : option jsstring }.

(** The client object; it holds the key it was built with. *)
Record GoogleGenAI := mkGoogleGenAI { apiKey : jsstring }.

(** One element of the parsed response array. *)
Record Item := mkItem {
  item_id : jsstring;
  item_analysis : AIAnalysis
}.

(** The module state [aiInstance] and the requests that went out. *)
Record World := mkWorld {
  aiInstance : option GoogleGenAI;
  requests : list Request
}.

Definition CONFIG_ERROR : jsstring :=
  lit "Gemini API key is not configured. Please set API_KEY or GEMINI_API_KEY in your .env.local file. Get your key from: https://aistudio.google.com/app/apikey".
Definition LEAKED_ERROR : jsstring :=
  lit "Your API key has been reported as leaked. Please generate a NEW API key from https://aistudio.google.com/app/apikey and update your .env.local file.".
Definition INVALID_KEY_ERROR : jsstring :=
  lit "Invalid API key. Please check your API_KEY in .env.local file. Get a new key from: https://aistudio.google.com/app/apikey".
Definition NO_DATA_ERROR : jsstring := lit "No data returned from AI".
Definition REPLY_EMPTY : jsstring := lit "Could not generate reply.".
Definition REPLY_ERROR : jsstring :=
  lit "Error generating reply. Please try again.".

(** The plain object [resultMap] of [analyzeEmailBatch]: its own
    properties, and the analysis object that an assignment to
    [__proto__] has made its prototype, if any; otherwise the prototype
    is [Object.prototype]. *)
Record ResultObject := mkResultObject {
  own : gmap jsstring AIAnalysis;
  proto : option AIAnalysis
}.

Definition PROTO : jsstring := lit "__proto__".

(** [{}] *)
Definition emptyObject : ResultObject := {| own := ∅; proto := None |}.

(** [resultMap[k] = a] for an object [a]: the key [__proto__] runs the
    setter of [Object.prototype], which replaces the prototype; any other
    key becomes an own property. *)
Definition setResult (k : jsstring) (a : AIAnalysis) (o : ResultObject)
  : ResultObject :=
  if decide (k = PROTO) then {| own := own o; proto := Some a |}
  else {| own := <[k := a]> (own o); proto := proto o |}.

(** The properties of [Object.prototype] besides [__proto__]; all are
    functions. *)
Definition objectPrototypeNames : list jsstring :=
  lit <$> [ "constructor"; "hasOwnProperty"; "isPrototypeOf";
            "propertyIsEnumerable"; "toLocaleString"; "toString"; "valueOf";
            "__defineGetter__"; "__defineSetter__"; "__lookupGetter__";
            "__lookupSetter__" ]%string.

(** The field [k] of an analysis object when it is truthy. *)
Definition truthyField (k : jsstring) (a : AIAnalysis) : option Foreign :=
  if decide (k = lit "summary") then
    match summary a with c :: s => Some (ForeignString c s) | [] => None end
  else if decide (k = lit "priority") then Some (ForeignPriority (priority a))
  else if decide (k = lit "urgencyScore") then
    match urgencyScore a with
    | Z0 => None
    | Zpos p => Some (ForeignNumber false p)
    | Zneg p => Some (ForeignNumber true p)
    end
  else if decide (k = lit "category") then Some (ForeignCategory (category a))
  else if decide (k = lit "actionItems") then Some (ForeignArray (actionItems a))
  else if decide (k = lit "sentiment") then
    match sentiment a with c :: s => Some (ForeignString c s) | [] => None end
  else None.

(** [results[k]] when it is truthy ([None] for [undefined], an empty
    string or zero): an own property, else what the prototype chain
    gives. *)
Definition readResult (k : jsstring) (o : ResultObject) : option AnalysisValue :=
  match own o !! k with
  | Some a => Some (IsAnalysis a)
  | None =>
      if decide (k = PROTO) then
        Some (match proto o with
              | Some a => IsAnalysis a
              | None => NotAnalysis ObjectPrototype
              end)
      else
        match proto o ≫= truthyField k with
        | Some v => Some (NotAnalysis v)
        | None =>
            if bool_decide (k ∈ objectPrototypeNames)
            then Some (NotAnalysis (Builtin k))
            else None
        end
  end.

(** Code that reads and writes the [World] and may throw. *)
Definition M (A : Type) : Type := World -> Completion A * World.

#[global] Instance M_ret : MRet M := fun A a w => (Normal a, w).
#[global] Instance M_bind : MBind M := fun A B f c w =>
  match c w with
  | (Normal a, w') => f a w'
  | (Throw e, w') => (Throw e, w')
  end.

(** [throw e] *)
Definition throw {A} (e : Thrown) : M A := fun w => (Throw e, w).

(** A completion that does not touch the [World]. *)
Definition liftC {A} (c : Completion A) : M A := fun w => (c, w).

(** [try { body } catch (e) { handler e }] *)
Definition tryCatch {A} (body : M A) (handler : Thrown -> M A) : M A :=
  fun w =>
    match body w with
    | (Normal a, w') => (Normal a, w')
    | (Throw e, w') => handler e w'
    end.

Section Gemini.
(** [process.env.API_KEY] *)
Variable API_KEY : option jsstring.
(** The service: the promise of [generateContent] resolves with a
    response or rejects with a thrown value. *)
Variable generateContent : GoogleGenAI -> Request -> Completion Response.
(** [JSON.parse] followed by the traversal of the array: a syntax error
    or data that is not an array throws. *)
Variable JSON_parse : jsstring -> Completion (list Item).

Definition getAI : M GoogleGenAI := fun w =>
  match aiInstance w with
  | Some ai => (Normal ai, w)
  | None =>
      match API_KEY with
      | Some (c :: k) =>
          let ai := {| apiKey := c :: k |} in
          (Normal ai, {| aiInstance := Some ai; requests := requests w |})
      | _ => (Throw (newError CONFIG_ERROR), w)
      end
  end.

(** [await ai.models.generateContent(...)]: the request goes out, then
    the promise settles. *)
Definition callService (ai : GoogleGenAI) (req : Request) : M Response :=
  fun w =>
    (generateContent ai req,
     {| aiInstance := aiInstance w; requests := requests w ++ [req] |}).

(** [resultMap[item.id] = ...] for every item, from left to right. *)
Definition toResultMap (items : list Item) : ResultObject :=
  foldl (fun o item => setResult (item_id item) (item_analysis item) o)
    emptyObject items.

(** The [try] block of [analyzeEmailBatch]. *)
Definition analyzeTry (emails : list RawEmail) : M ResultObject :=
  ai ← getAI;
  response ← callService ai (BatchRequest (toStub <$> emails));
  match text response with
  | Some (c :: rawData) =>
      items ← liftC (JSON_parse (c :: rawData));
      mret (toResultMap items)
  | _ => throw (newError NO_DATA_ERROR)
  end.

(** [error?.error?.code === n] *)
Definition hasCode (n : Z) (e : Thrown) : bool :=
  match error e ≫= code with
  | Some c => c =? n
  | None => false
  end.

(** [error?.error?.message?.includes(sub)], [undefined] being falsy *)
Definition messageIncludes (sub : jsstring) (e : Thrown) : bool :=
  match error e ≫= message with
  | Some m => includes sub m
  | None => false
  end.

(** The [catch] block of [analyzeEmailBatch]: the value it throws. *)
Definition analyzeCatch (e : Thrown) : Thrown :=
  if hasCode 403 e || messageIncludes (lit "leaked") e then
    newError LEAKED_ERROR
  else if hasCode 401 e || messageIncludes (lit "API key") e then
    newError INVALID_KEY_ERROR
  else
    match error e ≫= message with
    | Some (c :: m) => newError (lit "API Error: " ++ c :: m)
    | _ => e
    end.

Definition analyzeEmailBatch (emails : list RawEmail) : M ResultObject :=
  tryCatch (analyzeTry emails) (fun e => throw (analyzeCatch e)).

(** [generateSmartReply]: the prompt is built before the [try]; reading
    [email.body] of a well-typed [Email] does not throw. *)
Definition generateSmartReply (email : Email) : M jsstring :=
  let cleanBody := stripTags (body email) in
  let req := ReplyRequest (senderName email) (subject email) cleanBody in
  tryCatch
    (ai ← getAI;
     response ← callService ai req;
     mret (strOr (text response) REPLY_EMPTY))
    (fun e => mret REPLY_ERROR).
End Gemini.

(** ** Local store (storageService.ts) *)

Definition DB_KEY : jsstring := lit "inbox_intel_data_v1".

Section Storage.
(** [JSON.stringify] and [JSON.parse] on arrays of emails. *)
Variable JSON_stringify : list Email -> jsstring.
Variable JSON_parseEmails : jsstring -> Completion (list Email).
(** Whether [localStorage.setItem] throws (the quota is exceeded). *)
Variable setItemThrows : gmap jsstring jsstring -> jsstring -> jsstring -> bool.

(** [db.saveEmails]: the [catch] block logs and goes on. *)
Definition saveEmails (emails : list Email) (localStorage : gmap jsstring jsstring)
  : gmap jsstring jsstring :=
  let data := JSON_stringify emails in
  if setItemThrows localStorage DB_KEY data then localStorage
  else <[DB_KEY := data]> localStorage.

(** [db.getEmails]: [null] is [None]; an empty string is falsy. *)
Definition getEmails (localStorage : gmap jsstring jsstring)
  : Completion (option (list Email)) :=
  tryC
    (match localStorage !! DB_KEY with
     | Some (c :: data) => emails ← JSON_parseEmails (c :: data); Normal (Some emails)
     | _ => Normal None
     end)
    (fun _ => Normal None).

(** [db.clear] *)
Definition clear (localStorage : gmap jsstring jsstring)
  : gmap jsstring jsstring :=
  delete DB_KEY localStorage.
End Storage.

(** ** Running the analysis ([handleRunAI], App.tsx) *)

Inductive Tab := InboxTab | DashboardTab.

(** The three [alert] texts of the [catch] block, each around the error
    message. *)
Inductive Alert :=
| AlertKeySecurity (errorMessage : jsstring)
| AlertKeySetup (errorMessage : jsstring)
| AlertFailed (errorMessage : jsstring).

(** The React state the handler reads and sets, and the browser's
    [localStorage], which [db.saveEmails] writes. *)
Record AppState := mkAppState {
  st_emails : list Email;
  st_localStorage : gmap jsstring jsstring;
  st_activeTab : Tab;
  st_isAnalyzing : bool;
  st_alerts : list Alert
}.

(** [results[email.id] || email.analysis] inside the object spread. *)
Definition applyResult (results : ResultObject) (email : Email) : Email :=
  {| fields := email;
     analysis := match readResult (id email) results with
                 | Some v => Some v
                 | None => analysis email
                 end |}.

(** The [catch] block: which alert is shown. *)
Definition alertFor (e : Thrown) : Alert :=
  let errorMessage :=
    if instanceofError e then errorMessage e else lit "Unknown error" in
  if includes (lit "leaked") errorMessage then AlertKeySecurity errorMessage
  else if includes (lit "API key") errorMessage
          || includes (lit "not configured") errorMessage
          || includes (lit "Invalid") errorMessage
  then AlertKeySetup errorMessage
  else AlertFailed errorMessage.

Section App.
Variable getTime : jsstring -> option Z.
Variable API_KEY : option jsstring.
Variable generateContent : GoogleGenAI -> Request -> Completion Response.
Variable JSON_parse : jsstring -> Completion (list Item).
Variable JSON_stringify : list Email -> jsstring.
Variable setItemThrows : gmap jsstring jsstring -> jsstring -> jsstring -> bool.

(** [t[t.length - 1].id] *)
Definition latestId (t : list Email) : Completion jsstring :=
  match last t with
  | Some latest => Normal (id latest)
  | None => Throw TypeError
  end.

(** The [try] block of [handleRunAI], up to [updatedEmails]; [ts] is
    the value of [threads]. *)
Definition runAITry (emails : list Email) (ts : list (list Email))
  : M (list Email) :=
  ids ← liftC (mapM latestId ts);
  let latestEmailIds : gset jsstring := list_to_set ids in
  let emailsToAnalyze :=
    filter (fun e : Email => id e ∈ latestEmailIds) emails in
  results ← analyzeEmailBatch API_KEY generateContent JSON_parse
              (fields <$> emailsToAnalyze);
  mret (applyResult results <$> emails).

(** [handleRunAI]; [threads] is the memo of the render that installed
    the handler, so a render that throws installs none. *)
Definition handleRunAI (st : AppState) (w : World) : AppState * World :=
  match st_emails st with
  | [] => (st, w)
  | _ :: _ =>
      match threads getTime (st_emails st) with
      | Throw _ => (st, w)
      | Normal ts =>
          match runAITry (st_emails st) ts w with
          | (Normal updatedEmails, w') =>
              ({| st_emails := updatedEmails;
                  st_localStorage :=
                    saveEmails JSON_stringify setItemThrows updatedEmails
                      (st_localStorage st);
                  st_activeTab := DashboardTab;
                  st_isAnalyzing := false;
                  st_alerts := st_alerts st |}, w')
          | (Throw e, w') =>
              ({| st_emails := st_emails st;
                  st_localStorage := st_localStorage st;
                  st_activeTab := st_activeTab st;
                  st_isAnalyzing := false;
                  st_alerts := st_alerts st ++ [alertFor e] |}, w')
          end
      end
  end.
End App.

(** * The backend client, the local store and the remaining handlers *)

(** ** Backend client (gmailBackend.ts) *)

(** What the code reads of a [fetch] response: [ok], [statusText] and the
    promise of [json()], which rejects when the body is not JSON. *)
Record HttpResponse (B : Type) := mkHttpResponse {
  ok : bool;
  statusText : jsstring;
  json : Completion B
}.
Arguments ok {B} _.
Arguments statusText {B} _.
Arguments json {B} _.

(** The promise of [fetch]: it rejects when the backend is not
    reachable. *)
Abbreviation Fetched B := (Completion (HttpResponse B)).

(** The body of the three message calls as far as it is read:
    [data.messages], [None] when it is missing. *)
Abbreviation MessagesBody := (option (list BackendMessage.t)).

(** [messages.map(mapBackendMessageToEmail)]; [clock i] is what
    [new Date().toISOString()] gives while the message of index [i] is
    mapped. *)
Definition mapMessages (clock : nat -> jsstring)
    (messages : list BackendMessage.t) : list RawEmail :=
  imap (fun i msg => mapBackendMessageToEmail (clock i) msg) messages.

(** The [try] block shared, word for word, by [fetchEmailsFromBackend],
    [syncEmailsWithBackend] and [searchEmailsOnBackend]; [response] is
    the result of their [fetch]. *)
Definition readMessages (clock : nat -> jsstring)
    (response : Fetched MessagesBody) : Completion (list RawEmail) :=
  r ← response;
  if negb (ok r) then
    Throw (newError (lit "Backend error: " ++ statusText r))
  else
    data ← json r;
    Normal (mapMessages clock (default [] data)).

(** [fetchEmailsFromBackend]; [MOCK_EMAILS] is the constant of
    [constants.ts]. *)
Definition fetchEmailsFromBackend (MOCK_EMAILS : list RawEmail)
    (clock : nat -> jsstring) (response : Fetched MessagesBody)
  : Completion (list RawEmail) :=
  tryC (readMessages clock response) (fun _ => Normal MOCK_EMAILS).

(** [syncEmailsWithBackend]: the [catch] block warns and throws the error
    again. *)
Definition syncEmailsWithBackend (clock : nat -> jsstring)
    (response : Fetched MessagesBody) : Completion (list RawEmail) :=
  tryC (readMessages clock response) (fun e => Throw e).

(** [searchEmailsOnBackend]; [response] is the result of the [fetch] of
    the search URL built from the query. *)
Definition searchEmailsOnBackend (clock : nat -> jsstring)
    (response : Fetched MessagesBody) : Completion (list RawEmail) :=
  tryC (readMessages clock response) (fun _ => Normal []).

(** [AuthStatus] *)
Record AuthStatus := mkAuthStatus {
  isConfigured : bool;
  isAuthenticated : bool;
  isOffline : option bool;
  userEmail : option jsstring
}.

(** The body of the status call as far as it is read: the truthiness of
    [data.isAuthenticated], [data.isConfigured] ([None] for [undefined])
    and [data.userEmail]. *)
Record StatusBody := mkStatusBody {
  data_isAuthenticated : bool;
  data_isConfigured : option bool;
  data_userEmail : option jsstring
}.

(** [checkBackendAuthStatus] *)
Definition checkBackendAuthStatus (response : Fetched StatusBody)
  : Completion AuthStatus :=
  tryC
    (r ← response;
     if negb (ok r) then
       Normal {| isConfigured := false; isAuthenticated := false;
                 isOffline := Some false; userEmail := None |}
     else
       data ← json r;
       Normal {| isAuthenticated := data_isAuthenticated data;
                 isConfigured := default true (data_isConfigured data);
                 isOffline := Some false;
                 userEmail := data_userEmail data |})
    (fun _ => Normal {| isConfigured := false; isAuthenticated := false;
                        isOffline := Some true; userEmail := None |}).

(** [logoutFromBackend] *)
Definition logoutFromBackend {B} (response : Fetched B) : Completion bool :=
  tryC (r ← response; Normal (ok r)) (fun _ => Normal false).

(** ** Build configuration (vite.config.ts) *)

(** The value defined for [process.env.API_KEY]:
    [env.API_KEY || env.GEMINI_API_KEY || ''], which is always a
    string. *)
Definition definedApiKey (env_API_KEY env_GEMINI_API_KEY : option jsstring)
  : option jsstring :=
  Some (strOr env_API_KEY (strOr env_GEMINI_API_KEY [])).

(** ** Sync and selection (App.tsx) *)

(** The state [handleSync] sets besides the one of [AppState]. *)
Record ViewState := mkViewState {
  vs_app : AppState;
  vs_isSyncing : bool;
  vs_selectedThreadId : option jsstring
}.

Definition withEmails (st : AppState) (emails : list Email)
    (localStorage : gmap jsstring jsstring) : AppState :=
  {| st_emails := emails;
     st_localStorage := localStorage;
     st_activeTab := st_activeTab st;
     st_isAnalyzing := st_isAnalyzing st;
     st_alerts := st_alerts st |}.

(** [handleLoadCache]; [cachedEmails] is the result of
    [fetchEmailsFromBackend]. *)
Definition handleLoadCache (cachedEmails : Completion (list RawEmail))
    (st : AppState) : AppState :=
  match cachedEmails with
  | Normal cached =>
      withEmails st (mergeEmails (st_emails st) cached) (st_localStorage st)
  | Throw _ => st
  end.

(** [handleSync]; [newRawEmails] is the result of
    [syncEmailsWithBackend]; [db.saveEmails] writes the merged list. *)
Definition handleSync
    (JSON_stringify : list Email -> jsstring)
    (setItemThrows : gmap jsstring jsstring -> jsstring -> jsstring -> bool)
    (isAutoFetch : bool)
    (newRawEmails : Completion (list RawEmail)) (vs : ViewState) : ViewState :=
  let st := vs_app vs in
  let st' :=
    match newRawEmails with
    | Normal raw =>
        let merged := mergeEmails (st_emails st) raw in
        withEmails st merged
          (saveEmails JSON_stringify setItemThrows merged (st_localStorage st))
    | Throw _ => st
    end in
  {| vs_app := st';
     vs_isSyncing := false;
     vs_selectedThreadId :=
       if isAutoFetch then vs_selectedThreadId vs else None |}.

(** [threads.find(t => (t[0].threadId || t[0].id) === selectedThreadId)];
    [t[0]] of an empty array is [undefined]. *)
Fixpoint selectedThread (ts : list (list Email))
    (selectedThreadId : option jsstring) : Completion (option (list Email)) :=
  match ts with
  | [] => Normal None
  | t :: ts' =>
      match head t with
      | None => Throw TypeError
      | Some first =>
          if decide (Some (threadKey first) = selectedThreadId)
          then Normal (Some t)
          else selectedThread ts' selectedThreadId
      end
  end.

(** * Vocabulary of the statements *)

(** The ids of a list of emails, in order. *)
Definition ids (l : list Email) : list jsstring :=
  (fun e : Email => id e) <$> l.

(** No code unit of [g] is a line terminator: [g] can be a run of [.]. *)
Definition dotRun (g : jsstring) : Prop :=
  Forall (fun c => isLineTerminator c = false) g.

(** [f] contains a match of the sender pattern: somewhere in [f], a run
    of [.], a [<], a run of [.] and a [>]. *)
Definition matchesForm (f : jsstring) : Prop :=
  ∃ pre g1 g2 post,
    f = pre ++ g1 ++ LT_SIGN :: g2 ++ GT_SIGN :: post ∧ dotRun g1 ∧ dotRun g2.

(** The order a comparator induces when it does not throw: [x] may stay
    before [y]. *)
Definition lebOf {A} (comparefn : A -> A -> Completion (option Z)) (x y : A)
  : bool :=
  match comparefn x y with
  | Normal v => default 0 v <=? 0
  | Throw _ => true
  end.

Section SortByDef.
Context {A : Type}.

(** The sort for a comparator that does not throw. *)
Fixpoint insertBy (leb : A -> A -> bool) (x : A) (l : list A) : list A :=
match l with
| [] => [x]
| y :: l' => if leb x y then x :: l else y :: insertBy leb x l'
end.

Fixpoint sortBy (leb : A -> A -> bool) (l : list A) : list A :=
match l with
| [] => []
| x :: l' => insertBy leb x (sortBy leb l')
end.
End SortByDef.

(** What one step of the grouping does to the map: the email goes to the
    end of the array of its key, and a new key goes to the end of the
    map. *)
Fixpoint pushGroup (k : jsstring) (e : Email) (g : Groups) : Groups :=
  match g with
  | [] => [(k, [e])]
  | (k', v) :: g' =>
      if decide (k' = k) then (k', v ++ [e]) :: g'
      else (k', v) :: pushGroup k e g'
  end.

(** With distinct keys, the step changes the array of one key only. *)
Definition pushTo (k : jsstring) (e : Email) (kv : jsstring * list Email)
  : jsstring * list Email :=
  if decide (kv.1 = k) then (kv.1, kv.2 ++ [e]) else kv.

(** The array of every key holds the emails of that key, in the order of
    the input, and every email has its key in the map. *)
Definition groupsOf (l : list Email) (g : Groups) : Prop :=
  Forall (fun kv : jsstring * list Email =>
            kv.2 ≠ [] ∧ kv.2 = filter (fun e => threadKey e = kv.1) l) g
  ∧ ∀ e, e ∈ l -> threadKey e ∈ g.*1.


Section ThreadVocabulary.
Variable getTime : jsstring -> option Z.

(** The threads before they are ordered: every group, sorted. *)
Definition threadList (emails : list Email) : list (list Email) :=
sortBy (lebOf (compareReceivedAt getTime)) <$> (groupEmails emails).*2.

(** [a] is received no later than [b]; both dates parse. *)
Definition timeLe (a b : Email) : Prop :=
∃ ta tb, getTime (receivedAt a) = Some ta
         ∧ getTime (receivedAt b) = Some tb ∧ ta <= tb.


(** The working set has timestamps only: every [receivedAt] parses. *)
Definition validDates (l : list Email) : Prop :=
∀ e : Email, e ∈ l -> is_Some (getTime (receivedAt e)).

(** Total sort keys, equal to the parsed values on valid dates. *)
Definition timeKey (e : Email) : Z := default 0 (getTime (receivedAt e)).


End ThreadVocabulary.

(** [latestEmailIds] and [emailsToAnalyze] of [handleRunAI]. *)
Definition latestEmailIds (getTime : jsstring -> option Z) (emails : list Email)
  : gset jsstring :=
  match threads getTime emails with
  | Normal ts => list_to_set (omap (fun t => (fun e : Email => id e) <$> last t) ts)
  | Throw _ => ∅
  end.

Definition emailsToAnalyze (getTime : jsstring -> option Z) (emails : list Email)
  : list Email :=
  filter (fun e : Email => id e ∈ latestEmailIds getTime emails) emails.

(** The worlds that calls of the two operations can produce from the
    initial module state, whatever the service answers. *)
Inductive reachable (API_KEY : option jsstring) : World -> Prop :=
| reachable_init : reachable API_KEY {| aiInstance := None; requests := [] |}
| reachable_batch generateContent JSON_parse emails w :
    reachable API_KEY w ->
    reachable API_KEY
      (analyzeEmailBatch API_KEY generateContent JSON_parse emails w).2
| reachable_reply generateContent email w :
    reachable API_KEY w ->
    reachable API_KEY (generateSmartReply API_KEY generateContent email w).2.

(** [process.env.API_KEY] is missing or empty. *)
Definition keyMissing (API_KEY : option jsstring) : Prop :=
  API_KEY = None ∨ API_KEY = Some [].

(** [sub] occurs in [s]. *)
Definition contains (sub s : jsstring) : Prop :=
  ∃ pre post, s = pre ++ sub ++ post.

Definition KEY_PAGE : jsstring := lit "https://aistudio.google.com/app/apikey".

(** ** Sample data *)

(** A raw message without [threadId] and with an empty [from]. *)
Definition bareMessage : BackendMessage.t :=
  {| BackendMessage.id := lit "m1";
     BackendMessage.threadId := None;
     BackendMessage.snippet := None;
     BackendMessage.subject := None;
     BackendMessage.from := Some [];
     BackendMessage.date := None;
     BackendMessage.body := None |}.

(** A parser for the samples: a one-letter date is its code unit, any
    other string does not parse. *)
Definition sampleTime (s : jsstring) : option Z :=
  match s with
  | [c] => Some (Z.of_N c)
  | _ => None
  end.

Definition sampleAnalysis (urgency : Z) : AIAnalysis :=
  {| summary := lit "s"; priority := MEDIUM; urgencyScore := urgency;
     category := WORK; actionItems := []; sentiment := lit "NEUTRAL" |}.

Definition sampleRaw (i : string) (tid : option string) (date : string)
  : RawEmail :=
  {| id := lit i; threadId := lit <$> tid; sender := lit "x@y";
     senderName := lit "X"; subject := lit "S"; snippet := []; body := [];
     receivedAt := lit date; read := false |}.

Definition sampleEmail (i : string) (tid : option string) (date : string)
    (a : option AIAnalysis) : Email :=
  {| fields := sampleRaw i tid date; analysis := IsAnalysis <$> a |}.

(** Two threads: [a] with a reply [b], and [c] with a reply [d] of the
    same date as [c] that comes first in the input. *)
Definition sampleEmails : list Email :=
  [ sampleEmail "b" (Some "a"%string) "2" None;
    sampleEmail "d" (Some "c"%string) "3" None;
    sampleEmail "a" None "1" None;
    sampleEmail "c" None "3" (Some (sampleAnalysis 50)) ].

(** An optional string that [||] replaces: missing or empty. *)
Definition blank (o : option jsstring) : Prop := o = None ∨ o = Some [].

(** The sample with a quoted name. *)
Definition bobFrom : jsstring :=
  DQUOTE :: lit "Bob Smith" ++ DQUOTE :: lit " <bob@x.com>".

Definition bobMessage : BackendMessage.t :=
  {| BackendMessage.id := lit "a";
     BackendMessage.threadId := None;
     BackendMessage.snippet := None;
     BackendMessage.subject := None;
     BackendMessage.from := Some bobFrom;
     BackendMessage.date := None;
     BackendMessage.body := None |}.

(** A service that rejects every request, one that answers with a fixed
    text, and a parser that returns two items for one [id]. *)
Definition rejectingService (ai : GoogleGenAI) (req : Request)
  : Completion Response :=
  Throw (newError (lit "unavailable")).

Definition answeringService (ai : GoogleGenAI) (req : Request)
  : Completion Response :=
  Normal {| text := Some (lit "[...]") |}.

Definition sampleItems : list Item :=
  [ {| item_id := lit "a"; item_analysis := sampleAnalysis 10 |};
    {| item_id := lit "a"; item_analysis := sampleAnalysis 90 |} ].

Definition sampleParse (s : jsstring) : Completion (list Item) :=
  Normal sampleItems.

Definition freshWorld : World := {| aiInstance := None; requests := [] |}.

Definition sampleState : AppState :=
  {| st_emails := sampleEmails; st_localStorage := ∅;
     st_activeTab := InboxTab; st_isAnalyzing := false; st_alerts := [] |}.

(** A serializer for the samples, and a store that always has room. *)
Definition sampleStringify (emails : list Email) : jsstring := lit "[...]".

Definition roomyStore (localStorage : gmap jsstring jsstring)
    (k v : jsstring) : bool := false.

(** An email whose [id] is the name of a function of [Object.prototype],
    with an analysis of its own. *)
Definition toStringEmail : Email :=
  sampleEmail "toString" None "1" (Some (sampleAnalysis 7)).

Definition toStringState : AppState :=
  {| st_emails := [toStringEmail]; st_localStorage := ∅;
     st_activeTab := InboxTab; st_isAnalyzing := false; st_alerts := [] |}.

(** A parser that finds an empty array. *)
Definition emptyParse (s : jsstring) : Completion (list Item) := Normal [].

(** A rejection that tells of a leaked key in its own message and has no
    [error] property, and a service that rejects with it. *)
Definition leakSpeakingError : Thrown :=
  newError (lit "got status: 403 Forbidden. Your API key was reported as leaked.").

Definition leakReportingService (ai : GoogleGenAI) (req : Request)
  : Completion Response :=
  Throw leakSpeakingError.



(** * Properties *)

(** ** Merge reconciler *)

Lemma fields_mergeOne (m : gmap jsstring Email) (raw : RawEmail) :
  fields (mergeOne m raw) = raw.
Proof. unfold mergeOne. by destruct (m !! id raw ≫= analysis). Qed.

Lemma analysis_mergeOne (m : gmap jsstring Email) (raw : RawEmail) :
  analysis (mergeOne m raw) = m !! id raw ≫= analysis.
Proof. unfold mergeOne. by destruct (m !! id raw ≫= analysis). Qed.

(** What [get] finds in a map filled from left to right: the last record
    of the list with that key, else what the map held before. *)
Lemma foldl_insert_lookup (l : list Email) (m : gmap jsstring Email) (k : jsstring) :
  foldl (fun m (e : Email) => <[id e := e]> m) m l !! k
  = match last (filter (fun e : Email => id e = k) l) with
    | Some e => Some e
    | None => m !! k
    end.
Proof.
  revert m. induction l as [|e l IH]; intros m; simpl; [done|].
  rewrite IH, filter_cons. case_decide as Hk.
  - destruct (filter _ l) as [|x fl] eqn:Hfl; simpl.
    + subst k. by rewrite lookup_insert_eq.
    + destruct (last (x :: fl)) eqn:Hlast; [done|]. by apply last_None in Hlast.
  - destruct (last _); [done|]. by rewrite lookup_insert_ne.
Qed.

Lemma currentMap_lookup (l : list Email) (k : jsstring) :
  currentMap l !! k = last (filter (fun e : Email => id e = k) l).
Proof.
  unfold currentMap. rewrite foldl_insert_lookup, lookup_empty.
  by destruct (last _).
Qed.

Lemma mergeEmails_fields (current : list Email) (incoming : list RawEmail) :
  fields <$> mergeEmails current incoming = incoming.
Proof.
  unfold mergeEmails. rewrite <- list_fmap_compose.
  rewrite <- (list_fmap_id incoming) at 2.
  apply list_fmap_ext; intros i raw _. apply fields_mergeOne.
Qed.

Lemma mergeEmails_lookup (current : list Email) (incoming : list RawEmail) i :
  mergeEmails current incoming !! i
  = mergeOne (currentMap current) <$> incoming !! i.
Proof. unfold mergeEmails. apply list_lookup_fmap. Qed.

(** With unique ids, the last record with a given id is the only one. *)
Lemma last_filter_unique (l : list Email) (e : Email) :
  NoDup (ids l) -> e ∈ l ->
  last (filter (fun e' : Email => id e' = id e) l) = Some e.
Proof.
  unfold ids.
  induction l as [|x l IH]; intros Hnd Hin; [by apply elem_of_nil in Hin|].
  rewrite fmap_cons in Hnd. apply NoDup_cons in Hnd as [Hx Hnd].
  rewrite filter_cons. apply elem_of_cons in Hin as [->|Hin].
  - rewrite decide_True by done.
    destruct (filter (fun e' : Email => id e' = id x) l) as [|y fl] eqn:Hfl;
      [done|].
    assert (y ∈ filter (fun e' : Email => id e' = id x) l) as Hy
      by (rewrite Hfl; left).
    apply list_elem_of_filter in Hy as [Heq Hy].
    destruct Hx. rewrite <- Heq.
    by apply (list_elem_of_fmap_2 (fun e : Email => id e)).
  - rewrite decide_False.
    + by apply IH.
    + intros Heq. apply Hx. rewrite Heq.
      by apply (list_elem_of_fmap_2 (fun e : Email => id e)).
Qed.

(** C1.  The merged list is the incoming list, record by record and in the
    same order, with every field but [analysis] taken from the incoming
    record.  The [analysis] of a merged record is the one of the record of
    [current] with the same [id] when there is one and it carries an
    analysis, and is unset otherwise ([current] is searched through the
    map, so among several records with one id the last counts; with
    unique ids it is the only one).  An [id] of [current] that is not an
    [id] of [incoming] is not in the result. *)
Theorem mergeEmails_contract (current : list Email) (incoming : list RawEmail) :
  fields <$> mergeEmails current incoming = incoming
  ∧ (∀ i raw, incoming !! i = Some raw ->
       ∃ out, mergeEmails current incoming !! i = Some out
              ∧ fields out = raw
              ∧ analysis out
                = last (filter (fun e : Email => id e = id raw) current)
                    ≫= analysis)
  ∧ (NoDup (ids current) ->
     ∀ i raw out, incoming !! i = Some raw ->
       mergeEmails current incoming !! i = Some out ->
       (∀ e : Email, e ∈ current -> id e = id raw ->
          analysis out = analysis e)
       ∧ ((∀ e : Email, e ∈ current -> id e ≠ id raw) ->
          analysis out = None))
  ∧ (∀ e : Email, e ∈ current -> id e ∉ (id <$> incoming) ->
       id e ∉ ids (mergeEmails current incoming)).
Proof.
  split; [apply mergeEmails_fields|]. split; [|split].
  - intros i raw Hi. exists (mergeOne (currentMap current) raw).
    rewrite mergeEmails_lookup, Hi. split; [done|].
    split; [apply fields_mergeOne|].
    by rewrite analysis_mergeOne, currentMap_lookup.
  - intros Hnd i raw out Hi Hout.
    rewrite mergeEmails_lookup, Hi in Hout. injection Hout as <-.
    rewrite analysis_mergeOne, currentMap_lookup. split.
    + intros e He Heq. rewrite <- Heq.
      by rewrite (last_filter_unique current e Hnd He).
    + intros Hnone.
      destruct (filter (fun e : Email => id e = id raw) current) as [|y fl] eqn:Hfl;
        [done|].
      assert (y ∈ filter (fun e : Email => id e = id raw) current) as Hy
        by (rewrite Hfl; left).
      apply list_elem_of_filter in Hy as [Heq Hy]. by destruct (Hnone y Hy).
  - intros e He Hnot Hin. apply Hnot. unfold ids in Hin.
    rewrite <- (mergeEmails_fields current incoming) at 1.
    by rewrite <- list_fmap_compose.
Qed.

(** C2.  Merging the same incoming list against the result of the merge
    gives that result again. *)
Theorem mergeEmails_idempotent (current : list Email) (incoming : list RawEmail) :
  mergeEmails (mergeEmails current incoming) incoming
  = mergeEmails current incoming.
Proof.
  unfold mergeEmails at 1 3. apply list_fmap_ext; intros i raw Hi.
  set (m := currentMap current).
  assert (currentMap (mergeEmails current incoming) !! id raw ≫= analysis
          = m !! id raw ≫= analysis) as Heq.
  { rewrite currentMap_lookup. unfold mergeEmails. fold m.
    assert (filter (fun e : Email => id e = id raw) (mergeOne m <$> incoming)
            = mergeOne m <$> filter (fun r : RawEmail => id r = id raw) incoming)
      as ->.
    { clear Hi. induction incoming as [|r l IH]; [done|].
      rewrite fmap_cons, !filter_cons, fields_mergeOne, IH.
      by case_decide. }
    rewrite fmap_last.
    destruct (last (filter (fun r : RawEmail => id r = id raw) incoming))
      as [r|] eqn:Hlast; simpl.
    - apply last_Some_elem_of, list_elem_of_filter in Hlast as [Hr _].
      by rewrite analysis_mergeOne, Hr.
    - apply last_None in Hlast.
      apply list_elem_of_lookup_2 in Hi.
      by destruct (filter_nil_not_elem_of _ _ raw Hlast eq_refl). }
  unfold mergeOne. by rewrite Heq.
Qed.







(** ** Message normalizer *)

(** C5, as stated, fails: for a raw message without [threadId] the
    normalizer leaves [threadId] unset; it is not the record's [id]. *)
Lemma normalizer_threadId_not_defaulted :
  BackendMessage.threadId bareMessage = None
  ∧ threadId (mapBackendMessageToEmail [] bareMessage) = None
  ∧ threadId (mapBackendMessageToEmail [] bareMessage)
    ≠ Some (id (mapBackendMessageToEmail [] bareMessage)).
Proof. by vm_compute. Qed.

(** C5, amended.  The normalizer copies [threadId] from the raw record as
    it is, unset when the raw record has none; the default to the [id] is
    made by the grouping key of the thread assembler, which is the
    [threadId] when it is present and not empty and the [id] otherwise. *)
Theorem normalizer_threadId (now : jsstring) (msg : BackendMessage.t)
    (a : option AnalysisValue) :
  let raw := mapBackendMessageToEmail now msg in
  id raw = BackendMessage.id msg
  ∧ threadId raw = BackendMessage.threadId msg
  ∧ threadKey {| fields := raw; analysis := a |}
    = match BackendMessage.threadId msg with
      | Some (c :: t) => c :: t
      | _ => BackendMessage.id msg
      end.
Proof.
  unfold threadKey, mapBackendMessageToEmail.
  destruct (parseSender _) as [n s]. simpl.
  by destruct (BackendMessage.threadId msg) as [[|c t]|].
Qed.

Section DotStar.
Context {A : Type} (k : jsstring -> option A).

Lemma dotStar_sound s g a :
  dotStar k s = Some (g, a) -> ∃ s2, s = g ++ s2 ∧ dotRun g ∧ k s2 = Some a.
Proof.
  revert g. induction s as [|c s IH]; intros g; simpl.
  - destruct (k []) eqn:Hk; simpl; intros [=]; subst.
    exists []. split_and!; [done|constructor|done].
  - destruct (isLineTerminator c) eqn:Hc.
    + destruct (k (c :: s)) eqn:Hk; simpl; intros [=]; subst.
      exists (c :: s). split_and!; [done|constructor|done].
    + destruct (dotStar k s) as [[g' a']|] eqn:Hd.
      * intros [=]; subst.
        destruct (IH g' eq_refl) as (s2 & -> & Hg & Hk).
        exists s2. split; [done|]. split; [by constructor|done].
      * destruct (k (c :: s)) eqn:Hk; simpl; intros [=]; subst.
        exists (c :: s). split_and!; [done|constructor|done].
Qed.

Lemma dotStar_complete g s2 :
  dotRun g -> is_Some (k s2) -> is_Some (dotStar k (g ++ s2)).
Proof.
  intros Hg [a Hk]. induction Hg as [|c g Hc Hg IH]; simpl.
  - destruct s2 as [|c s]; simpl; [by rewrite Hk|].
    destruct (isLineTerminator c); [by rewrite Hk|].
    destruct (dotStar k s) as [[? ?]|]; [done|by rewrite Hk].
  - rewrite Hc. destruct IH as [[g' a'] ->]. done.
Qed.

(** A longer run wins: what the matcher finds after a run of [.] is the
    match of the whole. *)
Lemma dotStar_skip g s2 g2 a :
  dotRun g -> dotStar k s2 = Some (g2, a) ->
  dotStar k (g ++ s2) = Some (g ++ g2, a).
Proof.
  intros Hg Hd. induction Hg as [|c g Hc Hg IH]; simpl; [done|].
  by rewrite Hc, IH.
Qed.

(** The empty run is taken when no longer one leads to a match. *)
Lemma dotStar_here c s a :
  k (c :: s) = Some a -> dotStar k s = None ->
  dotStar k (c :: s) = Some ([], a).
Proof.
  intros Hk Hd. simpl. rewrite Hd, Hk. by destruct (isLineTerminator c).
Qed.
End DotStar.

Section DotStarNone.
Context {A : Type} (k : jsstring -> option A).

(** No match when the rest of the pattern fails at every position. *)
Lemma dotStar_None s :
  (∀ s1 s2, s = s1 ++ s2 -> k s2 = None) -> dotStar k s = None.
Proof.
  induction s as [|c s IH]; intros Hk; simpl.
  - by rewrite (Hk [] []).
  - rewrite (Hk [] (c :: s) eq_refl).
    rewrite IH; [by destruct (isLineTerminator c)|].
    intros s1 s2 ->. by apply (Hk (c :: s1)).
Qed.
End DotStarNone.

Lemma char_Some {A} (k : jsstring -> option A) c s a :
  char c k s = Some a -> ∃ s', s = c :: s' ∧ k s' = Some a.
Proof.
  destruct s as [|c' s']; simpl; [done|].
  destruct (N.eqb_spec c' c) as [->|]; [|done]. by exists s'.
Qed.

Lemma char_eq {A} (k : jsstring -> option A) c s : char c k (c :: s) = k s.
Proof. simpl. by rewrite N.eqb_refl. Qed.

Lemma dotStar_char_None {A} (k : jsstring -> option A) c s :
  c ∉ s -> dotStar (char c k) s = None.
Proof.
  intros Hc. apply dotStar_None; intros s1 s2 ->.
  destruct s2 as [|c' s2]; simpl; [done|].
  destruct (N.eqb_spec c' c) as [->|]; [|done].
  destruct Hc. apply elem_of_app; right; left.
Qed.

Lemma matchHere_Some s g1 g2 :
  matchHere s = Some (g1, g2) ->
  ∃ post, s = g1 ++ LT_SIGN :: g2 ++ GT_SIGN :: post ∧ dotRun g1 ∧ dotRun g2.
Proof.
  unfold matchHere.
  destruct (dotStar _ s) as [[h1 [h2 []]]|] eqn:Hd; intros [=]; subst.
  apply dotStar_sound in Hd as (s2 & -> & Hg1 & Hk).
  apply char_Some in Hk as (s3 & -> & Hd).
  apply dotStar_sound in Hd as (s4 & -> & Hg2 & Hk).
  apply char_Some in Hk as (post & -> & _). by exists post.
Qed.

Lemma matchHere_is_Some g1 g2 post :
  dotRun g1 -> dotRun g2 ->
  is_Some (matchHere (g1 ++ LT_SIGN :: g2 ++ GT_SIGN :: post)).
Proof.
  intros Hg1 Hg2. unfold matchHere.
  destruct (dotStar_complete
              (char LT_SIGN (dotStar (char GT_SIGN (fun _ => Some tt))))
              g1 (LT_SIGN :: g2 ++ GT_SIGN :: post) Hg1) as [[h1 [h2 []]] ->];
    [|done].
  rewrite char_eq. apply dotStar_complete; [done|]. by rewrite char_eq.
Qed.

(** The greedy match on a header of the form name, [<], address, [>]:
    the groups are the name and the address. *)
Lemma matchHere_form name addr post :
  dotRun name -> dotRun addr -> LT_SIGN ∉ addr -> GT_SIGN ∉ post ->
  matchHere (name ++ LT_SIGN :: addr ++ GT_SIGN :: post) = Some (name, addr).
Proof.
  intros Hname Haddr Hlt Hgt. unfold matchHere.
  set (kGT := char GT_SIGN (fun _ : jsstring => Some tt)).
  assert (dotStar kGT (addr ++ GT_SIGN :: post) = Some (addr, tt)) as Hinner.
  { rewrite <- (app_nil_r addr) at 2. apply dotStar_skip; [done|].
    apply dotStar_here; [by unfold kGT; rewrite char_eq|].
    by apply dotStar_char_None. }
  rewrite (dotStar_skip _ name _ [] (addr, tt)); [by rewrite app_nil_r|done|].
  apply dotStar_here; [by rewrite char_eq|].
  apply dotStar_None; intros s1 s2 Hs.
  destruct s2 as [|c s2]; simpl; [done|].
  destruct (N.eqb_spec c LT_SIGN) as [->|]; [|done].
  apply dotStar_char_None. intros Hin.
  (* the [<] lies after the address, hence in [post] *)
  assert (∃ p1, post = p1 ++ LT_SIGN :: s2) as [p1 ->].
  { clear -Hs Hlt. revert s1 Hs. induction addr as [|a addr IH]; intros s1 Hs.
    - destruct s1 as [|c s1]; simplify_eq/=. by exists s1.
    - destruct s1 as [|c s1]; simplify_eq/=.
      + destruct Hlt. left.
      + apply (IH ltac:(by intros ?; apply Hlt; right) s1). done. }
  apply Hgt, elem_of_app. right. by right.
Qed.

Lemma fromMatch_unfold s :
  fromMatch s = match matchHere s with
                | Some r => Some r
                | None => match s with
                          | _ :: s' => fromMatch s'
                          | [] => None
                          end
                end.
Proof. by destruct s. Qed.

Lemma fromMatch_form name addr post :
  dotRun name -> dotRun addr -> LT_SIGN ∉ addr -> GT_SIGN ∉ post ->
  fromMatch (name ++ LT_SIGN :: addr ++ GT_SIGN :: post) = Some (name, addr).
Proof.
  intros. by rewrite fromMatch_unfold, matchHere_form.
Qed.

Lemma fromMatch_Some s g1 g2 :
  fromMatch s = Some (g1, g2) -> matchesForm s.
Proof.
  induction s as [|c s IH]; simpl.
  - destruct (matchHere []) as [[h1 h2]|] eqn:Hm; [|done]. intros _.
    apply matchHere_Some in Hm as (post & ? & ? & ?). by exists [], h1, h2, post.
  - destruct (matchHere (c :: s)) as [[h1 h2]|] eqn:Hm.
    + intros _. apply matchHere_Some in Hm as (post & ? & ? & ?).
      by exists [], h1, h2, post.
    + intros (pre & h1 & h2 & post & -> & ? & ?)%IH.
      by exists (c :: pre), h1, h2, post.
Qed.

Lemma fromMatch_is_Some s : matchesForm s -> is_Some (fromMatch s).
Proof.
  intros (pre & g1 & g2 & post & -> & Hg1 & Hg2).
  induction pre as [|c pre IH].
  - destruct (matchHere_is_Some g1 g2 post Hg1 Hg2) as [r Hr].
    by rewrite app_nil_l, fromMatch_unfold, Hr.
  - rewrite fromMatch_unfold. simpl. by destruct (matchHere _).
Qed.

Lemma fromMatch_None_iff s : fromMatch s = None ↔ ¬ matchesForm s.
Proof.
  split.
  - intros Hn Hm. apply fromMatch_is_Some in Hm as [r Hr]. congruence.
  - intros Hm. destruct (fromMatch s) as [[g1 g2]|] eqn:Hf; [|done].
    destruct Hm. by apply fromMatch_Some in Hf.
Qed.

Lemma normalizer_parseSender (now : jsstring) (msg : BackendMessage.t) :
  let e := mapBackendMessageToEmail now msg in
  (senderName e, sender e) = parseSender (BackendMessage.from msg).
Proof.
  unfold mapBackendMessageToEmail. by destruct (parseSender _).
Qed.

(** The scenario of the spec: a quoted display name and an address. *)
Example normalizer_bob :
  parseSender (Some (DQUOTE :: lit "Bob Smith" ++ DQUOTE :: lit " <bob@x.com>"))
  = (lit "Bob Smith", lit "bob@x.com").
Proof. by vm_compute. Qed.

(** C6, as stated, fails: an empty [from] does not match the pattern, and
    it is not used as name and address; the sentinels are. *)
Lemma empty_from_gets_sentinels :
  let e := mapBackendMessageToEmail [] bareMessage in
  BackendMessage.from bareMessage = Some []
  ∧ ¬ matchesForm []
  ∧ senderName e ≠ [] ∧ sender e ≠ []
  ∧ senderName e = lit "Unknown" ∧ sender e = lit "unknown@example.com".
Proof.
  split; [done|]. split; [by apply fromMatch_None_iff|]. by vm_compute.
Qed.

(** C6, amended.  When [from] contains a match of the pattern, the
    name is the first group, trimmed and then freed of every double
    quote, and the address is the second group, trimmed; on a header made
    of a name, [<], an address and [>] the groups are that name and that
    address.  A [from] that is not empty and contains no match is used
    whole as name and as address.  Without [from], or with an empty one,
    the sentinels are used. *)
Theorem normalizer_sender (now : jsstring) (msg : BackendMessage.t) :
  let e := mapBackendMessageToEmail now msg in
  (∀ f, BackendMessage.from msg = Some f -> matchesForm f ->
     ∃ g1 g2, fromMatch f = Some (g1, g2)
              ∧ senderName e = stripQuotes (trim g1) ∧ sender e = trim g2)
  ∧ (∀ name addr post,
       BackendMessage.from msg
       = Some (name ++ LT_SIGN :: addr ++ GT_SIGN :: post) ->
       dotRun name -> dotRun addr -> LT_SIGN ∉ addr -> GT_SIGN ∉ post ->
       senderName e = stripQuotes (trim name) ∧ sender e = trim addr)
  ∧ (∀ f, BackendMessage.from msg = Some f -> f ≠ [] -> ¬ matchesForm f ->
       senderName e = f ∧ sender e = f)
  ∧ (BackendMessage.from msg = None ∨ BackendMessage.from msg = Some [] ->
       senderName e = lit "Unknown" ∧ sender e = lit "unknown@example.com").
Proof.
  intros e. pose proof (normalizer_parseSender now msg) as Hp. fold e in Hp.
  simpl in Hp. unfold parseSender in Hp.
  assert (∀ f g1 g2, BackendMessage.from msg = Some f ->
            fromMatch f = Some (g1, g2) ->
            senderName e = stripQuotes (trim g1) ∧ sender e = trim g2) as Hgroups.
  { intros f g1 g2 Hf Hm. rewrite Hf in Hp. destruct f as [|c f].
    - apply fromMatch_Some, fromMatch_None_iff in Hm; [done|by vm_compute].
    - rewrite Hm in Hp. by injection Hp. }
  split_and!.
  - intros f Hf Hm. destruct (fromMatch_is_Some f Hm) as [[g1 g2] Hg].
    exists g1, g2. split; [done|]. by apply (Hgroups f).
  - intros name addr post Hf Hname Haddr Hlt Hgt.
    apply (Hgroups _ _ _ Hf). by apply fromMatch_form.
  - intros f Hf Hne Hm. rewrite Hf in Hp. destruct f as [|c f]; [done|].
    apply fromMatch_None_iff in Hm. rewrite Hm in Hp. by injection Hp.
  - intros [Hf|Hf]; rewrite Hf in Hp; by injection Hp.
Qed.

(** ** Sorting *)

Section SortBy.
Context {A : Type}.

Lemma insertBy_Permutation (leb : A -> A -> bool) x l : insertBy leb x l ≡ₚ x :: l.
Proof.
  induction l as [|y l IH]; simpl; [done|].
  destruct (leb x y); [done|]. rewrite IH. apply Permutation_swap.
Qed.

Lemma sortBy_Permutation (leb : A -> A -> bool) l : sortBy leb l ≡ₚ l.
Proof.
  induction l as [|x l IH]; simpl; [done|].
  by rewrite insertBy_Permutation, IH.
Qed.

Lemma elem_of_sortBy (leb : A -> A -> bool) l x : x ∈ sortBy leb l ↔ x ∈ l.
Proof. by rewrite sortBy_Permutation. Qed.

Lemma insertBy_ext (leb leb' : A -> A -> bool) x l :
  (∀ y, y ∈ l -> leb x y = leb' x y) ->
  insertBy leb x l = insertBy leb' x l.
Proof.
  induction l as [|y l IH]; intros Hext; simpl; [done|].
  rewrite (Hext y) by left. rewrite IH; [done|].
  intros z Hz. apply Hext. by right.
Qed.

Lemma sortBy_ext (leb leb' : A -> A -> bool) l :
  (∀ x y, x ∈ l -> y ∈ l -> leb x y = leb' x y) ->
  sortBy leb l = sortBy leb' l.
Proof.
  induction l as [|x l IH]; intros Hext; simpl; [done|].
  rewrite IH by (intros y z Hy Hz; apply Hext; by right).
  apply insertBy_ext. intros y Hy%elem_of_sortBy.
  apply Hext; [left|by right].
Qed.

(** The sort with a comparator that does not throw on the elements. *)
Lemma insertSorted_insertBy (comparefn : A -> A -> Completion (option Z)) x l :
  (∀ y, y ∈ l -> ∃ v, comparefn x y = Normal v) ->
  insertSorted comparefn x l = Normal (insertBy (lebOf comparefn) x l).
Proof.
  induction l as [|y l IH]; intros Hn; simpl; [done|].
  unfold lebOf at 1. destruct (Hn y) as [v ->]; [left|]. simpl.
  destruct (default 0 v <=? 0); [done|].
  rewrite IH; [done|]. intros z Hz. apply Hn. by right.
Qed.

Lemma sort_sortBy (comparefn : A -> A -> Completion (option Z)) l :
  (∀ x y, x ∈ l -> y ∈ l -> ∃ v, comparefn x y = Normal v) ->
  sort comparefn l = Normal (sortBy (lebOf comparefn) l).
Proof.
  induction l as [|x l IH]; intros Hn; simpl; [done|].
  rewrite IH by (intros y z Hy Hz; apply Hn; by right). simpl.
  apply insertSorted_insertBy. intros y Hy%elem_of_sortBy.
  apply Hn; [left|by right].
Qed.

(** A total and transitive order gives a sorted result. *)
Lemma sortBy_StronglySorted (leb : A -> A -> bool) l :
  (∀ x y, leb x y = false -> leb y x = true) ->
  (∀ x y z, leb x y = true -> leb y z = true -> leb x z = true) ->
  StronglySorted (fun x y => leb x y = true) (sortBy leb l).
Proof.
  intros Htotal Htrans.
  assert (∀ x s, StronglySorted (fun x y => leb x y = true) s ->
            StronglySorted (fun x y => leb x y = true) (insertBy leb x s))
    as Hins.
  { intros x s Hs. induction Hs as [|y s Hs IH Hy]; simpl.
    - repeat constructor.
    - destruct (leb x y) eqn:Hxy.
      + constructor; [by constructor|].
        constructor; [done|].
        eapply Forall_impl; [apply Hy|]. intros z Hz. by eapply Htrans.
      + constructor; [done|].
        rewrite insertBy_Permutation. constructor; [by apply Htotal|done]. }
  induction l as [|x l IH]; simpl; [constructor|by apply Hins].
Qed.

(** Stability: the elements with one key keep their order. *)
Lemma sortBy_stable (key : A -> Z) (v : Z) l :
  filter (fun x => key x = v) (sortBy (fun x y => key x <=? key y) l)
  = filter (fun x => key x = v) l.
Proof.
  assert (∀ x s,
            filter (fun x => key x = v)
              (insertBy (fun x y => key x <=? key y) x s)
            = filter (fun x => key x = v) (x :: s)) as Hins.
  { intros x s. induction s as [|y s IH]; simpl; [done|].
    destruct (Z.leb_spec (key x) (key y)) as [Hle|Hlt]; [done|].
    rewrite filter_cons, IH, !filter_cons.
    repeat case_decide; done || lia. }
  induction l as [|x l IH]; simpl; [done|].
  by rewrite Hins, !filter_cons, IH.
Qed.
End SortBy.

(** ** Grouping *)

Lemma Map_set_absent k v (g : Groups) : k ∉ g.*1 -> Map_set k v g = g ++ [(k, v)].
Proof.
  induction g as [|[k' v'] g IH]; intros Hk; simpl; [done|].
  rewrite fmap_cons in Hk. apply not_elem_of_cons in Hk as [Hne Hk].
  rewrite decide_False by done. by rewrite IH.
Qed.

Lemma pushGroup_absent k e (g : Groups) :
  k ∉ g.*1 -> pushGroup k e g = g ++ [(k, [e])].
Proof.
  induction g as [|[k' v'] g IH]; intros Hk; simpl; [done|].
  rewrite fmap_cons in Hk. apply not_elem_of_cons in Hk as [Hne Hk].
  rewrite decide_False by done. by rewrite IH.
Qed.

Lemma Map_get_app_absent k v (g : Groups) :
  k ∉ g.*1 -> Map_get k (g ++ [(k, v)]) = Some v.
Proof.
  induction g as [|[k' v'] g IH]; intros Hk; simpl.
  - by rewrite decide_True.
  - rewrite fmap_cons in Hk. apply not_elem_of_cons in Hk as [Hne Hk].
    rewrite decide_False by done. by apply IH.
Qed.

Lemma Map_set_app_absent k v v' (g : Groups) :
  k ∉ g.*1 -> Map_set k v' (g ++ [(k, v)]) = g ++ [(k, v')].
Proof.
  induction g as [|[k' w] g IH]; intros Hk; simpl.
  - by rewrite decide_True.
  - rewrite fmap_cons in Hk. apply not_elem_of_cons in Hk as [Hne Hk].
    rewrite decide_False by done. by rewrite IH.
Qed.

Lemma Map_get_present k (g : Groups) : k ∈ g.*1 -> is_Some (Map_get k g).
Proof.
  induction g as [|[k' v'] g IH]; intros Hk; simpl.
  - by apply elem_of_nil in Hk.
  - case_decide; [done|]. apply IH.
    rewrite fmap_cons in Hk. apply elem_of_cons in Hk as [->|Hk]; done.
Qed.

Lemma Map_set_push k e arr (g : Groups) :
  Map_get k g = Some arr -> Map_set k (arr ++ [e]) g = pushGroup k e g.
Proof.
  induction g as [|[k' v'] g IH]; simpl; [done|].
  case_decide as Hk; [by intros [= ->]; subst|].
  intros Hget. by rewrite IH.
Qed.

Lemma groupStep_pushGroup (g : Groups) (e : Email) :
  groupStep g e = pushGroup (threadKey e) e g.
Proof.
  unfold groupStep, Map_has. case_bool_decide as Hk.
  - destruct (Map_get_present _ _ Hk) as [arr Harr].
    rewrite Harr. by apply Map_set_push.
  - rewrite (Map_set_absent _ _ _ Hk), (Map_get_app_absent _ _ _ Hk).
    by rewrite (Map_set_app_absent _ _ _ _ Hk), (pushGroup_absent _ _ _ Hk).
Qed.

Lemma pushGroup_keys k e (g : Groups) :
  (pushGroup k e g).*1 = if decide (k ∈ g.*1) then g.*1 else g.*1 ++ [k].
Proof.
  induction g as [|[k' v'] g IH]; [done|].
  cbn [pushGroup]. destruct (decide (k' = k)) as [->|Hne]; rewrite !fmap_cons.
  - rewrite decide_True; [done|left].
  - rewrite IH. cbn [fst]. destruct (decide (k ∈ g.*1)) as [Hin|Hnin].
    + rewrite decide_True; [done|by right].
    + rewrite decide_False; [done|].
      intros [?|?]%elem_of_cons; done.
Qed.

Lemma pushGroup_NoDup k e (g : Groups) :
  NoDup g.*1 -> NoDup (pushGroup k e g).*1.
Proof.
  intros Hnd. rewrite pushGroup_keys. case_decide; [done|].
  apply NoDup_app. split; [done|]. split; [|apply NoDup_singleton].
  intros x Hx ->%list_elem_of_singleton. done.
Qed.

Lemma pushGroup_concat k e (g : Groups) :
  concat (pushGroup k e g).*2 ≡ₚ concat g.*2 ++ [e].
Proof.
  induction g as [|[k' v'] g IH]; [done|].
  cbn [pushGroup]. case_decide; rewrite !fmap_cons; cbn [snd concat].
  - rewrite <- !(assoc_L (++)). f_equiv. apply Permutation_app_comm.
  - by rewrite IH, (assoc_L (++)).
Qed.

Lemma pushGroup_pushTo k e (g : Groups) :
  NoDup g.*1 ->
  pushGroup k e g
  = (pushTo k e <$> g) ++ (if decide (k ∈ g.*1) then [] else [(k, [e])]).
Proof.
  induction g as [|[k' v'] g IH]; intros Hnd; [done|].
  rewrite fmap_cons in Hnd. apply NoDup_cons in Hnd as [Hk' Hnd].
  cbn [pushGroup]. rewrite !fmap_cons. unfold pushTo at 1. cbn [fst snd].
  destruct (decide (k' = k)) as [->|Hne].
  - rewrite decide_True by left. rewrite app_nil_r. f_equal.
    clear IH Hnd. induction g as [|[k2 v2] g IH]; [done|].
    rewrite fmap_cons in Hk'. apply not_elem_of_cons in Hk' as [Hne Hk'].
    rewrite fmap_cons, <- IH by done. f_equal.
    unfold pushTo. by rewrite decide_False.
  - rewrite IH by done. cbn [app]. f_equal. f_equal.
    destruct (decide (k ∈ g.*1)) as [Hin|Hnin].
    + rewrite decide_True; [done|by right].
    + rewrite decide_False; [done|]. intros [?|?]%elem_of_cons; done.
Qed.

Lemma pushGroup_groupsOf e l (g : Groups) :
  NoDup g.*1 -> groupsOf l g ->
  groupsOf (l ++ [e]) (pushGroup (threadKey e) e g).
Proof.
  intros Hnd [Hg Hcover]. split.
  - rewrite pushGroup_pushTo by done. apply Forall_app. split.
    + apply Forall_fmap. eapply Forall_impl; [apply Hg|].
      intros [k v] [Hne Hv]. cbn [fst snd] in Hne, Hv.
      unfold compose, pushTo. cbn [fst snd].
      destruct (decide (k = threadKey e)) as [->|Hk]; cbn [fst snd];
        rewrite filter_app, filter_cons, filter_nil, <- Hv.
      * rewrite decide_True by done. split; [|done].
        by intros [? ?]%app_eq_nil.
      * rewrite decide_False by done. by rewrite app_nil_r.
    + case_decide as Hin; constructor; [|constructor]. cbn [fst snd].
      split; [done|].
      rewrite filter_app, filter_cons, decide_True, filter_nil by done.
      destruct (filter _ l) as [|x fl] eqn:Hfl; [done|].
      assert (x ∈ filter (fun e' => threadKey e' = threadKey e) l) as Hx
        by (rewrite Hfl; left).
      apply list_elem_of_filter in Hx as [Hkx Hx].
      destruct Hin. rewrite <- Hkx. by apply Hcover.
  - intros x Hx. rewrite pushGroup_keys.
    apply elem_of_app in Hx as [Hx|Hx].
    + case_decide; [by apply Hcover|]. apply elem_of_app. left. by apply Hcover.
    + apply list_elem_of_singleton in Hx as ->.
      case_decide; [done|]. apply elem_of_app. right. left.
Qed.

Lemma groupEmails_spec (emails : list Email) :
  let g := groupEmails emails in
  NoDup g.*1 ∧ groupsOf emails g ∧ concat g.*2 ≡ₚ emails.
Proof.
  unfold groupEmails.
  assert (∀ l l0 (g : Groups),
            NoDup g.*1 ∧ groupsOf l0 g ∧ concat g.*2 ≡ₚ l0 ->
            NoDup (foldl groupStep g l).*1
            ∧ groupsOf (l0 ++ l) (foldl groupStep g l)
            ∧ concat (foldl groupStep g l).*2 ≡ₚ l0 ++ l) as Hfold.
  { induction l as [|e l IH]; intros l0 g (Hnd & Hg & Hc).
    - by rewrite app_nil_r.
    - cbn [foldl]. rewrite (assoc_L (++) l0 [e] l : l0 ++ e :: l = (l0 ++ [e]) ++ l).
      apply IH. rewrite groupStep_pushGroup. split_and!.
      + by apply pushGroup_NoDup.
      + by apply pushGroup_groupsOf.
      + by rewrite pushGroup_concat, Hc. }
  apply (Hfold emails [] []). split_and!.
  - constructor.
  - split; [constructor|]. by intros e ?%elem_of_nil.
  - done.
Qed.

(** ** Thread assembler *)

Lemma mapM_Normal {A B} (f : A -> Completion B) (g : A -> B) (l : list A) :
  (∀ x, x ∈ l -> f x = Normal (g x)) -> mapM f l = Normal (g <$> l).
Proof.
  induction l as [|x l IH]; intros Hf; [done|].
  cbn [mapM]. rewrite (Hf x) by left. cbn.
  rewrite IH by (intros y Hy; apply Hf; by right). done.
Qed.

Lemma concat_Permutation {A} (l1 l2 : list (list A)) :
  l1 ≡ₚ l2 -> concat l1 ≡ₚ concat l2.
Proof.
  induction 1 as [|x l l' _ IH|x y l|l l' l'' _ IH1 _ IH2]; cbn [concat].
  - done.
  - by rewrite IH.
  - rewrite !(assoc_L (++)). f_equiv. apply Permutation_app_comm.
  - by rewrite IH1.
Qed.

Lemma concat_fmap_Permutation {A} (f : list A -> list A) (l : list (list A)) :
  (∀ x, f x ≡ₚ x) -> concat (f <$> l) ≡ₚ concat l.
Proof.
  intros Hf. induction l as [|x l IH]; [done|].
  rewrite fmap_cons. cbn [concat]. by rewrite Hf, IH.
Qed.

Section ThreadsFacts.
Variable getTime : jsstring -> option Z.

Lemma threadList_nonempty emails t : t ∈ threadList getTime emails -> t ≠ [].
Proof.
  unfold threadList. intros (v & -> & Hv)%list_elem_of_fmap.
  apply list_elem_of_fmap in Hv as ([k v'] & -> & Hkv).
  destruct (groupEmails_spec emails) as (_ & [Hg _] & _).
  rewrite Forall_forall in Hg. destruct (Hg _ Hkv) as [Hne _].
  cbn [snd] in *. intros Hnil. apply Hne.
  apply Permutation_nil_r. rewrite <- Hnil. by rewrite sortBy_Permutation.
Qed.

(** The assembler does not throw; its result is the sort of the sorted
    groups. *)
Lemma threads_Normal emails :
  threads getTime emails
  = Normal (sortBy (lebOf (compareThreads getTime)) (threadList getTime emails)).
Proof.
  unfold threads.
  rewrite (mapM_Normal _ (sortBy (lebOf (compareReceivedAt getTime)))).
  - cbn. apply sort_sortBy. intros a b Ha Hb.
    apply threadList_nonempty, last_is_Some in Ha as [la Hla].
    apply threadList_nonempty, last_is_Some in Hb as [lb Hlb].
    unfold compareThreads. rewrite Hla, Hlb.
    destruct (negb _); eauto.
  - intros v _. apply sort_sortBy. intros a b _ _.
    unfold compareReceivedAt. eauto.
Qed.

Lemma threads_flatten emails ts :
  threads getTime emails = Normal ts -> concat ts ≡ₚ emails.
Proof.
  rewrite threads_Normal. intros [= <-].
  rewrite (concat_Permutation _ _ (sortBy_Permutation _ _)).
  unfold threadList.
  rewrite concat_fmap_Permutation by (intros; apply sortBy_Permutation).
  apply groupEmails_spec.
Qed.

(** Every thread is the sorted group of one key, and the keys are
    distinct. *)
Lemma threads_groups emails ts :
  threads getTime emails = Normal ts ->
  ∃ g : Groups,
    g ≡ₚ groupEmails emails
    ∧ ts = (fun kv => sortBy (lebOf (compareReceivedAt getTime)) kv.2) <$> g.
Proof.
  rewrite threads_Normal. intros [= <-].
  pose proof (sortBy_Permutation (lebOf (compareThreads getTime))
                (threadList getTime emails)) as Hp.
  unfold threadList in Hp at 2. rewrite <- list_fmap_compose in Hp.
  apply Permutation_map_inv in Hp as (g & Hts & Hg).
  exists g. split; [done|]. by rewrite Hts.
Qed.
End ThreadsFacts.

(** C4.  The assembler returns threads whose concatenation is a
    permutation of the working set: the count is kept, the ids are the
    same with the same multiplicities, so each occurs once when the ids
    of the working set are distinct.  The threads are the classes of the
    grouping key: there is one key per thread, the keys are distinct,
    every email's key is one of them, and a thread is not empty and holds
    exactly the emails with its key. *)
Theorem threads_partition (getTime : jsstring -> option Z) (emails : list Email) :
  ∃ ts, threads getTime emails = Normal ts
    ∧ concat ts ≡ₚ emails
    ∧ length (concat ts) = length emails
    ∧ ids (concat ts) ≡ₚ ids emails
    ∧ (NoDup (ids emails) -> NoDup (ids (concat ts)))
    ∧ ∃ keys : list jsstring,
        NoDup keys
        ∧ (∀ e, e ∈ emails -> threadKey e ∈ keys)
        ∧ Forall2 (fun k t => t ≠ []
                              ∧ t ≡ₚ filter (fun e => threadKey e = k) emails)
            keys ts.
Proof.
  eexists. split; [apply threads_Normal|].
  pose proof (threads_flatten getTime emails _ (threads_Normal getTime emails))
    as Hflat.
  destruct (threads_groups getTime emails _ (threads_Normal getTime emails))
    as (g & Hg & Hts).
  destruct (groupEmails_spec emails) as (Hnd & [Hgroups Hcover] & _).
  split_and!.
  - done.
  - by rewrite Hflat.
  - unfold ids. by rewrite Hflat.
  - unfold ids. by rewrite Hflat.
  - exists g.*1. split_and!.
    + by rewrite Hg.
    + intros e He. rewrite Hg. by apply Hcover.
    + rewrite Hts. apply Forall2_fmap, Forall_Forall2_diag.
      rewrite Hg. eapply Forall_impl; [apply Hgroups|].
      intros [k v] [Hne Hv]. cbn [fst snd] in *. split.
      * intros Hnil. apply Hne, Permutation_nil_r.
        rewrite <- Hnil. by rewrite sortBy_Permutation.
      * by rewrite sortBy_Permutation, <- Hv.
Qed.

Lemma StronglySorted_weaken {A} (R R' : A -> A -> Prop) (l : list A) :
  (∀ x y, x ∈ l -> y ∈ l -> R x y -> R' x y) ->
  StronglySorted R l -> StronglySorted R' l.
Proof.
  intros Himpl Hs. induction Hs as [|x l Hs IH Hx]; constructor.
  - apply IH. intros y z Hy Hz. apply Himpl; by right.
  - rewrite Forall_forall in Hx. apply Forall_forall; intros y Hy.
    apply Himpl; [left|by right|by apply Hx].
Qed.

Lemma filter_ext_elem {A} (P Q : A -> Prop)
    `{!∀ x, Decision (P x)} `{!∀ x, Decision (Q x)} (l : list A) :
  (∀ x, x ∈ l -> P x ↔ Q x) -> filter P l = filter Q l.
Proof.
  induction l as [|x l IH]; intros Hext; [done|].
  rewrite !filter_cons, IH by (intros y Hy; apply Hext; by right).
  destruct (Hext x) as [H1 H2]; [left|].
  repeat case_decide; done || tauto.
Qed.

Section ThreadOrder.
Variable getTime : jsstring -> option Z.

Lemma lebOf_compareReceivedAt (a b : Email) :
  is_Some (getTime (receivedAt a)) -> is_Some (getTime (receivedAt b)) ->
  lebOf (compareReceivedAt getTime) a b = (timeKey getTime a <=? timeKey getTime b).
Proof.
  intros [ta Ha] [tb Hb]. unfold lebOf, compareReceivedAt, timeKey.
  rewrite Ha, Hb. cbn.
  destruct (Z.leb_spec (ta - tb) 0), (Z.leb_spec ta tb); done || lia.
Qed.




(** A sorted group under valid dates. *)
Lemma sorted_group (v : list Email) :
  validDates getTime v ->
  let t := sortBy (lebOf (compareReceivedAt getTime)) v in
  StronglySorted (timeLe getTime) t
  ∧ ∀ x, filter (fun e : Email => getTime (receivedAt e) = Some x) t
         = filter (fun e : Email => getTime (receivedAt e) = Some x) v.
Proof.
  intros Hvalid t.
  assert (t = sortBy (fun a b => timeKey getTime a <=? timeKey getTime b) v) as Ht.
  { apply sortBy_ext. intros a b Ha Hb.
    apply lebOf_compareReceivedAt; by apply Hvalid. }
  assert (validDates getTime t) as Hvt.
  { intros e He. apply Hvalid. by apply elem_of_sortBy in He. }
  assert (∀ (l : list Email) x, validDates getTime l ->
            filter (fun e : Email => getTime (receivedAt e) = Some x) l
            = filter (fun e : Email => timeKey getTime e = x) l) as Hfilter.
  { intros l x Hl. apply filter_ext_elem. intros e He.
    destruct (Hl e He) as [te Hte]. unfold timeKey. rewrite Hte. cbn.
    split; [by intros [= ->]|by intros ->]. }
  split.
  - eapply (StronglySorted_weaken
              (fun a b => (timeKey getTime a <=? timeKey getTime b) = true)).
    + intros a b Ha Hb Hle. apply Z.leb_le in Hle.
      destruct (Hvt a Ha) as [ta Hta], (Hvt b Hb) as [tb Htb].
      exists ta, tb. unfold timeKey in Hle. rewrite Hta, Htb in Hle.
      by split_and!.
    + rewrite Ht.
      apply (sortBy_StronglySorted (fun a b => timeKey getTime a <=? timeKey getTime b)).
      * intros a b. rewrite Z.leb_gt, Z.leb_le. lia.
      * intros a b c. rewrite !Z.leb_le. lia.
  - intros x. rewrite !Hfilter by done. rewrite Ht. apply sortBy_stable.
Qed.
End ThreadOrder.

Lemma elem_of_concat_2 {A} (l : list (list A)) (t : list A) (x : A) :
  t ∈ l -> x ∈ t -> x ∈ concat l.
Proof.
  induction l as [|t' l IH]; intros Ht Hx; [by apply elem_of_nil in Ht|].
  cbn [concat]. apply elem_of_app.
  apply elem_of_cons in Ht as [->|Ht]; [by left|right; by apply IH].
Qed.

Lemma threads_elem getTime (emails : list Email) ts t (e : Email) :
  threads getTime emails = Normal ts -> t ∈ ts -> e ∈ t -> e ∈ emails.
Proof.
  intros Hts Ht He. rewrite <- (threads_flatten _ _ _ Hts).
  by eapply elem_of_concat_2.
Qed.


(** ** Analysis client *)

Section GeminiFacts.
Variable API_KEY : option jsstring.
Variable generateContent : GoogleGenAI -> Request -> Completion Response.
Variable JSON_parse : jsstring -> Completion (list Item).

Lemma getAI_missing w :
  keyMissing API_KEY -> aiInstance w = None ->
  getAI API_KEY w = (Throw (newError CONFIG_ERROR), w).
Proof. unfold getAI. by intros [-> | ->] ->. Qed.

Lemma analyzeCatch_newError msg : analyzeCatch (newError msg) = newError msg.
Proof. done. Qed.

Lemma analyzeEmailBatch_getAI_throws emails w e w1 :
  getAI API_KEY w = (Throw e, w1) ->
  analyzeEmailBatch API_KEY generateContent JSON_parse emails w
  = (Throw (analyzeCatch e), w1).
Proof.
  intros Hai. unfold analyzeEmailBatch, tryCatch, analyzeTry, throw.
  unfold mbind, M_bind. by rewrite Hai.
Qed.

Lemma analyzeEmailBatch_rejected emails w ai w1 e :
  getAI API_KEY w = (Normal ai, w1) ->
  generateContent ai (BatchRequest (toStub <$> emails)) = Throw e ->
  analyzeEmailBatch API_KEY generateContent JSON_parse emails w
  = (Throw (analyzeCatch e),
     {| aiInstance := aiInstance w1;
        requests := requests w1 ++ [BatchRequest (toStub <$> emails)] |}).
Proof.
  intros Hai Hgc. unfold analyzeEmailBatch, tryCatch, analyzeTry, throw.
  unfold mbind, M_bind, callService. by rewrite Hai, Hgc.
Qed.

Lemma generateSmartReply_cases (email : Email) w :
  let req := ReplyRequest (senderName email) (subject email)
               (stripTags (body email)) in
  generateSmartReply API_KEY generateContent email w
  = match getAI API_KEY w with
    | (Throw _, w1) => (Normal REPLY_ERROR, w1)
    | (Normal ai, w1) =>
        let w2 := {| aiInstance := aiInstance w1;
                     requests := requests w1 ++ [req] |} in
        match generateContent ai req with
        | Throw _ => (Normal REPLY_ERROR, w2)
        | Normal response => (Normal (strOr (text response) REPLY_EMPTY), w2)
        end
    end.
Proof.
  unfold generateSmartReply, tryCatch, mbind, M_bind, callService, mret, M_ret.
  destruct (getAI API_KEY w) as [[ai|e] w1]; [|done].
  by destruct (generateContent ai _).
Qed.
End GeminiFacts.

(** Without a key no client is ever built and no request goes out. *)
Lemma reachable_missing API_KEY w :
  keyMissing API_KEY -> reachable API_KEY w ->
  aiInstance w = None ∧ requests w = [].
Proof.
  intros Hkey Hr.
  induction Hr as [|gc jp emails w Hr [Hai Hreq]|gc email w Hr [Hai Hreq]].
  - done.
  - rewrite (analyzeEmailBatch_getAI_throws _ gc jp emails w _ w)
      by (by apply getAI_missing).
    done.
  - rewrite generateSmartReply_cases, getAI_missing by done. done.
Qed.

(** ** Running the analysis *)

Lemma mapM_latestId (ts : list (list Email)) :
  (∀ t, t ∈ ts -> t ≠ []) ->
  mapM latestId ts
  = Normal (omap (fun t => (fun e : Email => id e) <$> last t) ts).
Proof.
  induction ts as [|t ts IH]; intros Hne; [done|].
  assert (t ≠ []) as [latest Hl]%last_is_Some by (apply Hne; left).
  change (mapM latestId (t :: ts))
    with (latestId t ≫= fun y => mapM latestId ts ≫= fun k => mret (y :: k)).
  rewrite IH by (intros t' Ht'; apply Hne; by right).
  unfold latestId. cbn [omap list_omap]. by rewrite Hl.
Qed.

Section AppFacts.
Variable getTime : jsstring -> option Z.
Variable API_KEY : option jsstring.
Variable generateContent : GoogleGenAI -> Request -> Completion Response.
Variable JSON_parse : jsstring -> Completion (list Item).
Variable JSON_stringify : list Email -> jsstring.
Variable setItemThrows : gmap jsstring jsstring -> jsstring -> jsstring -> bool.

Let batch := analyzeEmailBatch API_KEY generateContent JSON_parse.
Let run := handleRunAI getTime API_KEY generateContent JSON_parse
             JSON_stringify setItemThrows.

(** The handler on a working set that is not empty: what it does is
    decided by the batch analysis of the latest messages. *)
Lemma handleRunAI_cases st w :
  st_emails st ≠ [] ->
  run st w
  = match batch (fields <$> emailsToAnalyze getTime (st_emails st)) w with
    | (Normal results, w') =>
        let updatedEmails := applyResult results <$> st_emails st in
        ({| st_emails := updatedEmails;
            st_localStorage :=
              saveEmails JSON_stringify setItemThrows updatedEmails
                (st_localStorage st);
            st_activeTab := DashboardTab;
            st_isAnalyzing := false;
            st_alerts := st_alerts st |}, w')
    | (Throw e, w') =>
        ({| st_emails := st_emails st;
            st_localStorage := st_localStorage st;
            st_activeTab := st_activeTab st;
            st_isAnalyzing := false;
            st_alerts := st_alerts st ++ [alertFor e] |}, w')
    end.
Proof.
  intros Hne. unfold run, handleRunAI, emailsToAnalyze, latestEmailIds.
  destruct (st_emails st) as [|e0 l] eqn:Hemails; [done|].
  rewrite threads_Normal. unfold runAITry.
  rewrite mapM_latestId.
  - unfold liftC, mbind, M_bind, mret, M_ret. fold batch.
    by destruct (batch _ w) as [[results|e] w'].
  - intros t Ht. apply (threadList_nonempty getTime (e0 :: l)).
    by apply elem_of_sortBy in Ht.
Qed.
End AppFacts.

Lemma startsWith_spec sub s :
  startsWith sub s = true ↔ ∃ post, s = sub ++ post.
Proof.
  revert s. induction sub as [|c sub IH]; intros s; simpl.
  - split; [by exists s|done].
  - destruct s as [|c' s]; [split; [done|by intros [? ?]]|].
    rewrite andb_true_iff, N.eqb_eq, IH. split.
    + intros [-> [post ->]]. by exists post.
    + intros [post [= -> ->]]. split; [done|by exists post].
Qed.

(** [includes] finds exactly the strings in which [sub] occurs. *)
Lemma includes_contains sub s : includes sub s = true ↔ contains sub s.
Proof.
  unfold contains. induction s as [|c s IH]; simpl.
  - rewrite orb_false_r, startsWith_spec. split.
    + intros [post Hp]. by exists [], post.
    + intros (pre & post & Hp). destruct pre; [by exists post|done].
  - rewrite orb_true_iff, startsWith_spec, IH. split.
    + intros [[post Hp]|(pre & post & ->)]; [by exists [], post|].
      by exists (c :: pre), post.
    + intros (pre & post & Hp). destruct pre as [|c' pre].
      * left. by exists post.
      * injection Hp as -> ->. right. by exists pre, post.
Qed.

Lemma includes_false sub s : includes sub s = false ↔ ¬ contains sub s.
Proof.
  rewrite <- includes_contains. by destruct (includes sub s).
Qed.

Lemma hasCode_spec n e body :
  error e = Some body -> hasCode n e = true ↔ code body = Some n.
Proof.
  intros He. unfold hasCode. rewrite He. cbn.
  destruct (code body) as [c|]; [|done].
  rewrite Z.eqb_eq. split; [by intros ->|by intros [= ->]].
Qed.

Lemma messageIncludes_spec sub e body :
  error e = Some body ->
  messageIncludes sub e = true ↔ ∃ m, message body = Some m ∧ contains sub m.
Proof.
  intros He. unfold messageIncludes. rewrite He. cbn.
  destruct (message body) as [m|].
  - rewrite includes_contains. split; [by exists m|by intros (? & [= <-] & ?)].
  - split; [done|by intros (? & ? & ?)].
Qed.

Lemma analyzeCatch_fields e :
  (error e = None -> analyzeCatch e = e)
  ∧ ∀ body, error e = Some body ->
      (code body = Some 403 -> analyzeCatch e = newError LEAKED_ERROR)
      ∧ (∀ m, message body = Some m -> contains (lit "leaked") m ->
           analyzeCatch e = newError LEAKED_ERROR)
      ∧ (code body ≠ Some 403 ->
         (∀ m, message body = Some m -> ¬ contains (lit "leaked") m) ->
           (code body = Some 401 -> analyzeCatch e = newError INVALID_KEY_ERROR)
           ∧ (∀ m, message body = Some m -> contains (lit "API key") m ->
                analyzeCatch e = newError INVALID_KEY_ERROR)
           ∧ (code body ≠ Some 401 ->
              (∀ m, message body = Some m -> ¬ contains (lit "API key") m) ->
                match message body with
                | Some (c :: m) =>
                    analyzeCatch e = newError (lit "API Error: " ++ c :: m)
                | _ => analyzeCatch e = e
                end)).
Proof.
  split.
  - intros He. unfold analyzeCatch, hasCode, messageIncludes. by rewrite He.
  - intros body He.
    pose proof (hasCode_spec 403 e body He) as H403.
    pose proof (hasCode_spec 401 e body He) as H401.
    pose proof (messageIncludes_spec (lit "leaked") e body He) as Hleak.
    pose proof (messageIncludes_spec (lit "API key") e body He) as Hkey.
    unfold analyzeCatch. rewrite He. cbn [mbind option_bind].
    destruct (hasCode 403 e) eqn:E403; cbn [orb].
    { split_and!; [done|done|]. intros Hc. by destruct Hc, H403 as [-> _]. }
    destruct (messageIncludes (lit "leaked") e) eqn:Eleak; cbn [orb].
    { split_and!; [done|done|]. intros _ Hno.
      destruct Hleak as [(m & Hm & Hcon) _]; [done|]. by destruct (Hno m Hm). }
    split_and!.
    { intros Hc. apply H403 in Hc. done. }
    { intros m Hm Hcon. destruct Hleak as [_ Hl].
      discriminate Hl. by exists m. }
    intros _ _.
    destruct (hasCode 401 e) eqn:E401; cbn [orb].
    { split_and!; [done|done|]. intros Hc. by destruct Hc, H401 as [-> _]. }
    destruct (messageIncludes (lit "API key") e) eqn:Ekey; cbn [orb].
    { split_and!; [done|done|]. intros _ Hno.
      destruct Hkey as [(m & Hm & Hcon) _]; [done|]. by destruct (Hno m Hm). }
    split_and!.
    { intros Hc. apply H401 in Hc. done. }
    { intros m Hm Hcon. destruct Hkey as [_ Hk].
      discriminate Hk. by exists m. }
    intros _ _. by destruct (message body) as [[|c m]|].
Qed.

Lemma alertFor_spec e :
  let msg := if instanceofError e then errorMessage e else lit "Unknown error" in
  (contains (lit "leaked") msg -> alertFor e = AlertKeySecurity msg)
  ∧ (¬ contains (lit "leaked") msg ->
       contains (lit "API key") msg ∨ contains (lit "not configured") msg
       ∨ contains (lit "Invalid") msg ->
       alertFor e = AlertKeySetup msg)
  ∧ (¬ contains (lit "leaked") msg -> ¬ contains (lit "API key") msg ->
       ¬ contains (lit "not configured") msg -> ¬ contains (lit "Invalid") msg ->
       alertFor e = AlertFailed msg).
Proof.
  intros msg. unfold alertFor. fold msg. split_and!.
  - intros Hl%includes_contains. by rewrite Hl.
  - intros Hl%includes_false Hsome. rewrite Hl.
    rewrite <- !includes_contains in Hsome.
    destruct Hsome as [Hs|[Hs|Hs]]; rewrite Hs; [done| |].
    + by rewrite orb_true_r.
    + by rewrite orb_true_r.
  - intros Hl%includes_false Hk%includes_false Hc%includes_false
      Hi%includes_false. by rewrite Hl, Hk, Hc, Hi.
Qed.

(** C7, as stated, fails: a rejection that tells of a leaked key (status
    403) in its own message but has no [error] property is thrown again
    as it is, not as the error that tells to make a new key. *)
Lemma leak_without_error_property_rethrown :
  contains (lit "leaked") (errorMessage leakSpeakingError)
  ∧ contains (lit "403") (errorMessage leakSpeakingError)
  ∧ error leakSpeakingError = None
  ∧ (analyzeEmailBatch (Some (lit "k")) leakReportingService sampleParse
       [] freshWorld).1
    = Throw leakSpeakingError
  ∧ leakSpeakingError ≠ newError LEAKED_ERROR.
Proof.
  split; [by apply includes_contains|].
  split; [by apply includes_contains|]. by vm_compute.
Qed.

(** C7, amended.  (1) With the key missing or empty, in every world the
    two operations can reach, the batch analysis throws the configuration
    error and no request has gone or goes out.  (2) When the service
    rejects the request, the batch analysis throws, after that one
    request.  For a rejection with an [error] property: the leaked-key
    error when [error.code] is 403 or [error.message] tells of a leak;
    else the invalid-key error when [error.code] is 401 or
    [error.message] names the API key; else the generic API error around
    [error.message] when there is one; else the rejection itself.  A
    rejection without [error] property is thrown again as it is.
    (3) The two key errors name the page where a new key is made, and
    the errors differ from each other.  (4) When the batch analysis
    throws, [handleRunAI] keeps the working set and the local store as
    they were. *)
Theorem batch_failure_modes (getTime : jsstring -> option Z)
    (API_KEY : option jsstring)
    (generateContent : GoogleGenAI -> Request -> Completion Response)
    (JSON_parse : jsstring -> Completion (list Item))
    (JSON_stringify : list Email -> jsstring)
    (setItemThrows : gmap jsstring jsstring -> jsstring -> jsstring -> bool) :
  let batch := analyzeEmailBatch API_KEY generateContent JSON_parse in
  (∀ emails w, keyMissing API_KEY -> reachable API_KEY w ->
     batch emails w = (Throw (newError CONFIG_ERROR), w) ∧ requests w = [])
  ∧ (∀ emails w ai w1 e,
       getAI API_KEY w = (Normal ai, w1) ->
       generateContent ai (BatchRequest (toStub <$> emails)) = Throw e ->
       ∃ e', batch emails w
             = (Throw e',
                {| aiInstance := aiInstance w1;
                   requests := requests w1 ++ [BatchRequest (toStub <$> emails)] |})
         ∧ (error e = None -> e' = e)
         ∧ ∀ body, error e = Some body ->
             (code body = Some 403 -> e' = newError LEAKED_ERROR)
             ∧ (∀ m, message body = Some m -> contains (lit "leaked") m ->
                  e' = newError LEAKED_ERROR)
             ∧ (code body ≠ Some 403 ->
                (∀ m, message body = Some m -> ¬ contains (lit "leaked") m) ->
                  (code body = Some 401 -> e' = newError INVALID_KEY_ERROR)
                  ∧ (∀ m, message body = Some m -> contains (lit "API key") m ->
                       e' = newError INVALID_KEY_ERROR)
                  ∧ (code body ≠ Some 401 ->
                     (∀ m, message body = Some m ->
                           ¬ contains (lit "API key") m) ->
                       match message body with
                       | Some (c :: m) =>
                           e' = newError (lit "API Error: " ++ c :: m)
                       | _ => e' = e
                       end)))
  ∧ (includes KEY_PAGE LEAKED_ERROR = true
     ∧ includes KEY_PAGE INVALID_KEY_ERROR = true
     ∧ CONFIG_ERROR ≠ LEAKED_ERROR ∧ CONFIG_ERROR ≠ INVALID_KEY_ERROR
     ∧ LEAKED_ERROR ≠ INVALID_KEY_ERROR
     ∧ ∀ m, lit "API Error: " ++ m ≠ CONFIG_ERROR
            ∧ lit "API Error: " ++ m ≠ LEAKED_ERROR
            ∧ lit "API Error: " ++ m ≠ INVALID_KEY_ERROR)
  ∧ (∀ st w e w',
       batch (fields <$> emailsToAnalyze getTime (st_emails st)) w
       = (Throw e, w') ->
       let st' := (handleRunAI getTime API_KEY generateContent JSON_parse
                     JSON_stringify setItemThrows st w).1 in
       st_emails st' = st_emails st
       ∧ st_localStorage st' = st_localStorage st).
Proof.
  intros batch. split_and!.
  - intros emails w Hkey Hr.
    destruct (reachable_missing _ _ Hkey Hr) as [Hai Hreq]. split; [|done].
    unfold batch.
    by rewrite (analyzeEmailBatch_getAI_throws _ _ _ emails w _ w),
      analyzeCatch_newError by (by apply getAI_missing).
  - intros emails w ai w1 e Hai Hgc. exists (analyzeCatch e).
    split; [by apply (analyzeEmailBatch_rejected _ _ _ emails w ai)|].
    apply analyzeCatch_fields.
  - by vm_compute.
  - by vm_compute.
  - by vm_compute.
  - by vm_compute.
  - by vm_compute.
  - intros m. split_and!; by vm_compute.
  - intros st w e w' Hb. destruct (st_emails st) as [|e0 l] eqn:Hemails.
    + unfold handleRunAI. by rewrite Hemails.
    + rewrite <- Hemails in Hb. unfold batch in Hb.
      rewrite handleRunAI_cases, Hb by (by rewrite Hemails). by cbn.
Qed.

(** C8: the code at an email whose [id] names a function of
    [Object.prototype].  The service answers with an empty array, so the
    email is not in the results; its analysis is nevertheless replaced,
    by the function that the read of the result object finds in the
    prototype. *)
Theorem handleRunAI_overwrites_inherited_id :
  let after :=
    handleRunAI sampleTime (Some (lit "k")) answeringService emptyParse
      sampleStringify roomyStore toStringState freshWorld in
  analysis toStringEmail = Some (IsAnalysis (sampleAnalysis 7))
  ∧ (analyzeEmailBatch (Some (lit "k")) answeringService emptyParse
       (fields <$> emailsToAnalyze sampleTime [toStringEmail]) freshWorld).1
    = Normal emptyObject
  ∧ own emptyObject !! id toStringEmail = None
  ∧ st_emails after.1
    = [ {| fields := toStringEmail;
           analysis := Some (NotAnalysis (Builtin (lit "toString"))) |} ].
Proof. intros after. split_and!; vm_compute; reflexivity. Qed.

(** C9.  [generateSmartReply] returns a string in every world and for
    every answer of the service; when the client cannot be built (the key
    is missing) or the service rejects the request, the string is the
    fixed error text.  The batch analysis throws in both cases. *)
Theorem generateSmartReply_never_throws (API_KEY : option jsstring)
    (generateContent : GoogleGenAI -> Request -> Completion Response)
    (JSON_parse : jsstring -> Completion (list Item)) :
  let reply := generateSmartReply API_KEY generateContent in
  let batch := analyzeEmailBatch API_KEY generateContent JSON_parse in
  (∀ email w, ∃ s, (reply email w).1 = Normal s)
  ∧ (∀ (email : Email) w e w1,
       getAI API_KEY w = (Throw e, w1) ->
       reply email w = (Normal REPLY_ERROR, w1))
  ∧ (∀ (email : Email) w, keyMissing API_KEY -> aiInstance w = None ->
       reply email w = (Normal REPLY_ERROR, w))
  ∧ (∀ (email : Email) w ai w1 e,
       getAI API_KEY w = (Normal ai, w1) ->
       generateContent ai
         (ReplyRequest (senderName email) (subject email)
            (stripTags (body email))) = Throw e ->
       (reply email w).1 = Normal REPLY_ERROR)
  ∧ (∀ emails w e w1,
       getAI API_KEY w = (Throw e, w1) ->
       ∃ e', batch emails w = (Throw e', w1))
  ∧ (∀ emails w ai w1 e,
       getAI API_KEY w = (Normal ai, w1) ->
       generateContent ai (BatchRequest (toStub <$> emails)) = Throw e ->
       ∃ e', (batch emails w).1 = Throw e').
Proof.
  intros reply batch. unfold reply, batch. split_and!.
  - intros email w. rewrite generateSmartReply_cases.
    destruct (getAI API_KEY w) as [[ai|e] w1]; [|by eexists].
    cbn zeta. destruct (generateContent ai _); by eexists.
  - intros email w e w1 Hai. by rewrite generateSmartReply_cases, Hai.
  - intros email w Hkey Hai.
    by rewrite generateSmartReply_cases, getAI_missing.
  - intros email w ai w1 e Hai Hgc.
    by rewrite generateSmartReply_cases, Hai; cbn zeta; rewrite Hgc.
  - intros emails w e w1 Hai. eexists.
    by apply analyzeEmailBatch_getAI_throws.
  - intros emails w ai w1 e Hai Hgc. eexists.
    by rewrite (analyzeEmailBatch_rejected _ _ _ emails w ai w1 e).
Qed.

(** ** Scenarios *)

(** The scenario of the spec for the merge: the analysis of ["1"] is
    kept, and ["2"], absent from the incoming list, is dropped. *)
Example merge_scenario :
  mergeEmails
    [ sampleEmail "1" None "1" (Some (sampleAnalysis 7));
      sampleEmail "2" None "2" None ]
    [ sampleRaw "1" None "5" ]
  = [ sampleEmail "1" None "5" (Some (sampleAnalysis 7)) ].
Proof. by vm_compute. Qed.

(** The sample set: the thread of [c] comes first by its score although
    its last message is [c] itself (equal dates keep the input order, [d]
    before [c]); the thread of [a] is in the order of the dates. *)
Example threads_scenario :
  threads sampleTime sampleEmails
  = Normal [ [ sampleEmail "d" (Some "c"%string) "3" None;
               sampleEmail "c" None "3" (Some (sampleAnalysis 50)) ];
             [ sampleEmail "a" None "1" None;
               sampleEmail "b" (Some "a"%string) "2" None ] ].
Proof. by vm_compute. Qed.

Lemma sampleEmails_valid : validDates sampleTime sampleEmails.
Proof.
  intros e He. unfold sampleEmails in He.
  repeat (apply elem_of_cons in He as [->|He]; [by eexists|]).
  by apply elem_of_nil in He.
Defined.


(** * Further properties *)

(** ** Normalizer: defaults *)

Lemma strOr_blank o d : blank o -> strOr o d = d.
Proof. by intros [-> | ->]. Qed.

Lemma strOr_not_blank o d : ¬ blank o -> Some (strOr o d) = o.
Proof.
  unfold blank. destruct o as [[|c s]|]; simpl; intros Hb; try done;
    destruct Hb; auto.
Qed.


(** ** Normalizer: what the sender groups never hold *)

Lemma trimStart_suffix s : ∃ ws, s = ws ++ trimStart s.
Proof.
  induction s as [|c s [ws IH]]; [by exists []|]. simpl.
  destruct (isWhiteSpace c); [|by exists []].
  exists (c :: ws). by rewrite IH at 1.
Qed.

Lemma trimStart_head s c : head (trimStart s) = Some c -> isWhiteSpace c = false.
Proof.
  induction s as [|c' s IH]; simpl; [done|].
  destruct (isWhiteSpace c') eqn:Hc; [done|]. by intros [= <-].
Qed.

Lemma trimEnd_prefix s : ∃ ws, s = trimEnd s ++ ws.
Proof.
  unfold trimEnd. destruct (trimStart_suffix (rev s)) as [ws Hws].
  exists (rev ws). rewrite <- rev_app_distr, <- Hws. by rewrite rev_involutive.
Qed.

Lemma trim_split s : ∃ ws1 ws2, s = ws1 ++ trim s ++ ws2.
Proof.
  unfold trim. destruct (trimStart_suffix s) as [ws1 H1].
  destruct (trimEnd_prefix (trimStart s)) as [ws2 H2].
  exists ws1, ws2. by rewrite <- H2.
Qed.

Lemma elem_of_trim s c : c ∈ trim s -> c ∈ s.
Proof.
  destruct (trim_split s) as (ws1 & ws2 & Hs). intros Hc. rewrite Hs.
  apply elem_of_app. right. apply elem_of_app. by left.
Qed.

Lemma trim_head s c : head (trim s) = Some c -> isWhiteSpace c = false.
Proof.
  unfold trim. destruct (trimEnd_prefix (trimStart s)) as [ws Hws].
  intros Hh. apply (trimStart_head s). rewrite Hws.
  destruct (trimEnd (trimStart s)); [done|]. done.
Qed.

Lemma trim_last s c : last (trim s) = Some c -> isWhiteSpace c = false.
Proof.
  unfold trim, trimEnd. intros Hl. apply (trimStart_head (rev (trimStart s))).
  rewrite rev_alt in Hl. by rewrite <- (last_reverse (trimStart _)).
Qed.

Lemma dotStar_None_inv {A} (k : jsstring -> option A) s h s2 :
  dotStar k s = None -> s = h ++ s2 -> dotRun h -> k s2 = None.
Proof.
  intros Hn -> Hh. destruct (k s2) as [a|] eqn:Hk; [|done].
  destruct (dotStar_complete k h s2 Hh) as [r Hr]; [by eexists|]. congruence.
Qed.

(** The greedy group is the longest run after which the rest matches. *)
Lemma dotStar_maximal {A} (k : jsstring -> option A) s g a h s2 :
  dotStar k s = Some (g, a) -> h ≠ [] -> s = (g ++ h) ++ s2 -> dotRun h ->
  k s2 = None.
Proof.
  revert g. induction s as [|c s IH]; intros g Hd Hne Hs Hh.
  - by destruct g, h.
  - simpl in Hd. destruct (isLineTerminator c) eqn:Hc.
    + destruct (k (c :: s)); simpl in Hd; [|done]. injection Hd as <- <-.
      destruct h as [|c' h]; [done|]. injection Hs as <- _.
      apply Forall_cons in Hh as [Hc' _]. congruence.
    + destruct (dotStar k s) as [[g' a']|] eqn:Hds.
      * injection Hd as <- <-. injection Hs as Hs. by eapply IH.
      * destruct (k (c :: s)); simpl in Hd; [|done]. injection Hd as <- <-.
        destruct h as [|c' h]; [done|]. injection Hs as <- Hs.
        apply Forall_cons in Hh as [_ Hh]. by eapply dotStar_None_inv.
Qed.

Lemma matchHere_no_LT s g1 g2 :
  matchHere s = Some (g1, g2) -> LT_SIGN ∉ g2.
Proof.
  unfold matchHere.
  destruct (dotStar _ s) as [[h1 [h2 []]]|] eqn:Hd; intros [=]; subst.
  intros (a & b & ->)%list_elem_of_split.
  pose proof Hd as Hd'.
  apply dotStar_sound in Hd' as (s2 & -> & Hg1 & Hk).
  apply char_Some in Hk as (s3 & -> & Hd2).
  apply dotStar_sound in Hd2 as (s4 & -> & Hg2 & Hk).
  apply char_Some in Hk as (post & -> & _).
  apply Forall_app in Hg2 as [Ha Hb]. apply Forall_cons in Hb as [_ Hb].
  assert (char LT_SIGN (dotStar (char GT_SIGN (fun _ => Some tt)))
            (LT_SIGN :: b ++ GT_SIGN :: post) = None) as Hnone.
  { eapply (dotStar_maximal _ _ _ _ (LT_SIGN :: a) _ Hd); [done| |].
    - by rewrite <- !(assoc_L (++)).
    - by constructor. }
  rewrite char_eq in Hnone.
  destruct (dotStar_complete (char GT_SIGN (fun _ => Some tt)) b
              (GT_SIGN :: post) Hb) as [r Hr]; [by rewrite char_eq|].
  congruence.
Qed.

Lemma fromMatch_groups s g1 g2 :
  fromMatch s = Some (g1, g2) -> dotRun g1 ∧ dotRun g2 ∧ LT_SIGN ∉ g2.
Proof.
  induction s as [|c s IH]; rewrite fromMatch_unfold.
  - destruct (matchHere []) as [[h1 h2]|] eqn:Hm; [|done]. intros [= -> ->].
    pose proof (matchHere_no_LT _ _ _ Hm).
    by apply matchHere_Some in Hm as (post & _ & ? & ?).
  - destruct (matchHere (c :: s)) as [[h1 h2]|] eqn:Hm; [|done].
    intros [= -> ->]. pose proof (matchHere_no_LT _ _ _ Hm).
    by apply matchHere_Some in Hm as (post & _ & ? & ?).
Qed.

Lemma dotRun_trim g : dotRun g -> dotRun (trim g).
Proof.
  unfold dotRun. rewrite !Forall_forall. intros Hg c Hc.
  by apply Hg, elem_of_trim.
Qed.

(** For a [from] that matches the pattern, the address holds no [<] and
    no line terminator and neither starts nor ends with white space; the
    name holds no double quote and no line terminator. *)
Theorem sender_of_match (now : jsstring) (msg : BackendMessage.t) (f : jsstring) :
  BackendMessage.from msg = Some f -> matchesForm f ->
  let e := mapBackendMessageToEmail now msg in
  (LT_SIGN ∉ sender e) ∧ dotRun (sender e)
  ∧ (∀ c, head (sender e) = Some c -> isWhiteSpace c = false)
  ∧ (∀ c, last (sender e) = Some c -> isWhiteSpace c = false)
  ∧ (DQUOTE ∉ senderName e) ∧ dotRun (senderName e).
Proof.
  intros Hf Hm e. pose proof (normalizer_parseSender now msg) as Hp.
  fold e in Hp. simpl in Hp. rewrite Hf in Hp. unfold parseSender in Hp.
  destruct (fromMatch_is_Some f Hm) as [[g1 g2] Hg].
  destruct f as [|c f]; [by vm_compute in Hg|]. rewrite Hg in Hp.
  injection Hp as -> ->.
  destruct (fromMatch_groups _ _ _ Hg) as (Hg1 & Hg2 & Hlt).
  split_and!.
  - intros Hin. by apply Hlt, elem_of_trim.
  - by apply dotRun_trim.
  - apply trim_head.
  - apply trim_last.
  - unfold stripQuotes. rewrite list_elem_of_In, filter_In.
    intros [_ Hq]. by rewrite N.eqb_refl in Hq.
  - apply dotRun_trim in Hg1. unfold dotRun, stripQuotes in *.
    rewrite Forall_forall in *. intros c' Hc'. apply Hg1.
    rewrite list_elem_of_In in *. by apply filter_In in Hc' as [? _].
Qed.

Lemma sender_of_match_witness :
  BackendMessage.from bobMessage = Some bobFrom ∧ matchesForm bobFrom
  ∧ let e := mapBackendMessageToEmail [] bobMessage in
    (LT_SIGN ∉ sender e) ∧ dotRun (sender e)
    ∧ (∀ c, head (sender e) = Some c -> isWhiteSpace c = false)
    ∧ (∀ c, last (sender e) = Some c -> isWhiteSpace c = false)
    ∧ (DQUOTE ∉ senderName e) ∧ dotRun (senderName e).
Proof.
  assert (matchesForm bobFrom) as Hm.
  { exists [], (DQUOTE :: lit "Bob Smith" ++ DQUOTE :: lit " "),
      (lit "bob@x.com"), [].
    split; [reflexivity|]. split; apply Forall_forall; intros c Hc;
      vm_compute in Hc; repeat (apply elem_of_cons in Hc as [->|Hc]; [done|]);
      by apply elem_of_nil in Hc. }
  split; [reflexivity|]. split; [exact Hm|].
  exact (sender_of_match [] bobMessage bobFrom eq_refl Hm).
Defined.

(** ** Backend client *)

Lemma readMessages_cases (clock : nat -> jsstring) (response : Fetched MessagesBody) :
  readMessages clock response
  = match response with
    | Throw e => Throw e
    | Normal r =>
        if ok r then
          match json r with
          | Throw e => Throw e
          | Normal data => Normal (mapMessages clock (default [] data))
          end
        else Throw (newError (lit "Backend error: " ++ statusText r))
    end.
Proof.
  unfold readMessages. destruct response as [r|e]; [|done]. cbn.
  destruct (ok r); [|done]. cbn. by destruct (json r).
Qed.

(** [syncEmailsWithBackend] returns exactly when the backend answered
    with an ok status and a JSON body, and then with the normalized
    messages (none when the body has no [messages]); it throws the
    network error, a backend error made of the status text, or the error
    of the body, as the case may be. *)
Theorem sync_outcomes (clock : nat -> jsstring) (response : Fetched MessagesBody) :
  (∀ l, syncEmailsWithBackend clock response = Normal l ↔
        ∃ r data, response = Normal r ∧ ok r = true ∧ json r = Normal data
                  ∧ l = mapMessages clock (default [] data))
  ∧ (∀ e, response = Throw e -> syncEmailsWithBackend clock response = Throw e)
  ∧ (∀ r, response = Normal r -> ok r = false ->
       syncEmailsWithBackend clock response
       = Throw (newError (lit "Backend error: " ++ statusText r)))
  ∧ (∀ r e, response = Normal r -> ok r = true -> json r = Throw e ->
       syncEmailsWithBackend clock response = Throw e).
Proof.
  unfold syncEmailsWithBackend, tryC. rewrite readMessages_cases. split_and!.
  - intros l. split.
    + destruct response as [r|e]; [|done].
      destruct (ok r) eqn:Hok; [|done].
      destruct (json r) as [data|e] eqn:Hj; [|done].
      intros [= <-]. by exists r, data.
    + intros (r & data & -> & -> & -> & ->). done.
  - by intros e ->.
  - by intros r -> ->.
  - by intros r e -> -> ->.
Qed.

(** [fetchEmailsFromBackend] and [searchEmailsOnBackend] never throw: on
    an answer for which the sync returns they return the same list, and
    on one for which the sync throws they return the mock emails and the
    empty list. *)
Theorem fetch_search_fall_back (MOCK_EMAILS : list RawEmail)
    (clock : nat -> jsstring) (response : Fetched MessagesBody) :
  (∃ l, fetchEmailsFromBackend MOCK_EMAILS clock response = Normal l)
  ∧ (∃ l, searchEmailsOnBackend clock response = Normal l)
  ∧ (∀ l, syncEmailsWithBackend clock response = Normal l ->
       fetchEmailsFromBackend MOCK_EMAILS clock response = Normal l
       ∧ searchEmailsOnBackend clock response = Normal l)
  ∧ (∀ e, syncEmailsWithBackend clock response = Throw e ->
       fetchEmailsFromBackend MOCK_EMAILS clock response = Normal MOCK_EMAILS
       ∧ searchEmailsOnBackend clock response = Normal []).
Proof.
  unfold fetchEmailsFromBackend, searchEmailsOnBackend, syncEmailsWithBackend,
    tryC.
  destruct (readMessages clock response) as [l|e]; split_and!; eauto;
    by intros ? [=]; subst.
Qed.

Lemma mapMessages_lookup clock msgs i :
  mapMessages clock msgs !! i
  = mapBackendMessageToEmail (clock i) <$> msgs !! i.
Proof. unfold mapMessages. by rewrite list_lookup_imap. Qed.

(** The normalized list has one record per backend message, in the same
    order, with the ids and thread ids of the messages and [read] unset;
    when every message has a date the clock plays no part. *)
Theorem mapMessages_shape (clock : nat -> jsstring) (msgs : list BackendMessage.t) :
  length (mapMessages clock msgs) = length msgs
  ∧ id <$> mapMessages clock msgs = BackendMessage.id <$> msgs
  ∧ threadId <$> mapMessages clock msgs = BackendMessage.threadId <$> msgs
  ∧ Forall (fun e => read e = false) (mapMessages clock msgs)
  ∧ (Forall (fun m => ¬ blank (BackendMessage.date m)) msgs ->
     ∀ clock', mapMessages clock' msgs = mapMessages clock msgs).
Proof.
  assert (∀ (f : RawEmail -> jsstring) g,
            (∀ now m, f (mapBackendMessageToEmail now m) = g m) ->
            f <$> mapMessages clock msgs = g <$> msgs) as Hmap1.
  { intros f g Hfg. apply list_eq; intros i.
    rewrite !list_lookup_fmap, mapMessages_lookup.
    destruct (msgs !! i); [|done]. cbn. by rewrite Hfg. }
  assert (∀ (f : RawEmail -> option jsstring) g,
            (∀ now m, f (mapBackendMessageToEmail now m) = g m) ->
            f <$> mapMessages clock msgs = g <$> msgs) as Hmap2.
  { intros f g Hfg. apply list_eq; intros i.
    rewrite !list_lookup_fmap, mapMessages_lookup.
    destruct (msgs !! i); [|done]. cbn. by rewrite Hfg. }
  split_and!.
  - apply length_imap.
  - apply Hmap1. intros now m. unfold mapBackendMessageToEmail.
    by destruct (parseSender _).
  - apply Hmap2. intros now m. unfold mapBackendMessageToEmail.
    by destruct (parseSender _).
  - apply Forall_forall. intros e (i & He)%list_elem_of_lookup.
    rewrite mapMessages_lookup in He.
    destruct (msgs !! i) as [m|]; [|done]. injection He as <-.
    unfold mapBackendMessageToEmail. by destruct (parseSender _).
  - intros Hdates clock'. apply list_eq; intros i.
    rewrite !mapMessages_lookup.
    destruct (msgs !! i) as [m|] eqn:Hm; [|done]. cbn. f_equal.
    rewrite Forall_forall in Hdates.
    assert (¬ blank (BackendMessage.date m)) as Hd
      by (apply Hdates; by eapply list_elem_of_lookup_2).
    unfold mapBackendMessageToEmail. destruct (parseSender _). f_equal.
    unfold blank in Hd.
    destruct (BackendMessage.date m) as [[|c d]|]; try done; destruct Hd; auto.
Qed.

(** [checkBackendAuthStatus] never throws.  It reports offline exactly
    when the backend could not be reached or its body could not be read,
    and then neither configured nor authenticated; it reports
    authenticated only for an ok answer whose body says so; a status that
    is not ok gives not configured, not authenticated and online; a body
    without [isConfigured] counts as configured. *)
Theorem auth_status_outcomes (response : Fetched StatusBody) :
  ∃ s, checkBackendAuthStatus response = Normal s
    ∧ (isOffline s = Some true ↔
         (∃ e, response = Throw e)
         ∨ (∃ r e, response = Normal r ∧ ok r = true ∧ json r = Throw e))
    ∧ (isOffline s = Some true ->
         isConfigured s = false ∧ isAuthenticated s = false)
    ∧ (isAuthenticated s = true ->
         ∃ r data, response = Normal r ∧ ok r = true ∧ json r = Normal data
                   ∧ data_isAuthenticated data = true
                   ∧ isOffline s = Some false)
    ∧ (∀ r, response = Normal r -> ok r = false ->
         isConfigured s = false ∧ isAuthenticated s = false
         ∧ isOffline s = Some false)
    ∧ (∀ r data, response = Normal r -> ok r = true -> json r = Normal data ->
         isConfigured s = default true (data_isConfigured data)
         ∧ userEmail s = data_userEmail data).
Proof.
  unfold checkBackendAuthStatus, tryC.
  destruct response as [r|e]; cbn;
    [destruct (ok r) eqn:Hok; cbn;
     [destruct (json r) as [data|e] eqn:Hj; cbn|]|];
    (eexists; split; [done|]; cbn; split_and!;
     first
       [ done
       | by (split; [done|];
             intros [[? ?]|(? & ? & ? & ? & ?)]; simplify_eq; congruence)
       | by (split; [|done]; intros _; eauto 6)
       | by (intros; eexists _, _; split_and!; eauto)
       | by (intros; simplify_eq; eauto 6; split_and!; congruence) ]).
Qed.

(** [logoutFromBackend] never throws, and returns [true] exactly when the
    backend answered with an ok status. *)
Theorem logout_outcome {B} (response : Fetched B) :
  ∃ b, logoutFromBackend response = Normal b
    ∧ (b = true ↔ ∃ r, response = Normal r ∧ ok r = true).
Proof.
  unfold logoutFromBackend, tryC. destruct response as [r|e]; cbn.
  - exists (ok r). split; [done|]. split.
    + intros Hok. by exists r.
    + intros (r' & Heq & Hok). by injection Heq as <-.
  - exists false. split; [done|]. split; [done|]. by intros (r' & ? & ?).
Qed.

(** ** Local store *)

(** The store never throws to its caller: [getEmails] returns [null] for
    an empty store, after [clear], for an empty text and for a text that
    does not parse; a [saveEmails] whose [setItem] throws leaves the
    store as it was; [saveEmails] and [clear] touch no other key. *)
Theorem db_edges (JSON_stringify : list Email -> jsstring)
    (JSON_parseEmails : jsstring -> Completion (list Email))
    (setItemThrows : gmap jsstring jsstring -> jsstring -> jsstring -> bool)
    (emails : list Email) (localStorage : gmap jsstring jsstring) :
  let save := saveEmails JSON_stringify setItemThrows in
  let get := getEmails JSON_parseEmails in
  (∃ r, get localStorage = Normal r)
  ∧ get ∅ = Normal None
  ∧ get (clear localStorage) = Normal None
  ∧ get (clear (save emails localStorage)) = Normal None
  ∧ (localStorage !! DB_KEY = Some [] -> get localStorage = Normal None)
  ∧ (∀ data e, localStorage !! DB_KEY = Some data ->
       JSON_parseEmails data = Throw e -> get localStorage = Normal None)
  ∧ (setItemThrows localStorage DB_KEY (JSON_stringify emails) = true ->
       save emails localStorage = localStorage)
  ∧ (∀ k, k ≠ DB_KEY ->
       save emails localStorage !! k = localStorage !! k
       ∧ clear localStorage !! k = localStorage !! k).
Proof.
  intros save get. unfold save, get, getEmails, saveEmails, clear, tryC.
  split_and!.
  - destruct (localStorage !! DB_KEY) as [[|c data]|]; eauto.
    destruct (JSON_parseEmails (c :: data)); cbn; eauto.
  - by rewrite lookup_empty.
  - by rewrite lookup_delete_eq.
  - by rewrite lookup_delete_eq.
  - by intros ->.
  - intros data e -> He. destruct data as [|c data]; [done|]. by rewrite He.
  - by intros ->.
  - intros k Hk. split.
    + destruct (setItemThrows _ _ _); [done|]. by rewrite lookup_insert_ne.
    + by rewrite lookup_delete_ne.
Qed.

(** ** Gemini service: what is sent *)

Lemma stripTagsFrom_no_LT b s : LT_SIGN ∉ stripTagsFrom b s.
Proof.
  revert b. induction s as [|c s IH]; intros b; simpl; [apply not_elem_of_nil|].
  destruct b.
  - destruct (c =? GT_SIGN)%N; apply IH.
  - destruct (N.eqb_spec c LT_SIGN) as [->|Hne].
    + apply not_elem_of_cons. split; [done|apply IH].
    + apply not_elem_of_cons. split; [done|apply IH].
Qed.

Lemma stripTagsFrom_length b s : (length (stripTagsFrom b s) <= length s)%nat.
Proof.
  revert b. induction s as [|c s IH]; intros b; simpl; [done|].
  destruct b.
  - destruct (c =? GT_SIGN)%N; etrans; [apply IH|lia|apply IH|lia].
  - destruct (c =? LT_SIGN)%N; simpl; apply le_n_S, IH.
Qed.

Lemma stripTags_id s : LT_SIGN ∉ s -> stripTags s = s.
Proof.
  unfold stripTags. induction s as [|c s IH]; intros Hs; simpl; [done|].
  apply not_elem_of_cons in Hs as [Hc Hs].
  destruct (N.eqb_spec c LT_SIGN) as [->|_]; [done|]. by rewrite IH.
Qed.

Lemma stripTagsFrom_tag tag post :
  GT_SIGN ∉ tag ->
  stripTagsFrom true (tag ++ GT_SIGN :: post) = stripTagsFrom false post.
Proof.
  induction tag as [|c tag IH]; intros Hgt; simpl.
  - done.
  - apply not_elem_of_cons in Hgt as [Hc Hgt].
    destruct (N.eqb_spec c GT_SIGN) as [->|_]; [done|by apply IH].
Qed.

Lemma stripTagsFrom_unclosed rest :
  GT_SIGN ∉ rest -> stripTagsFrom true rest = [].
Proof.
  induction rest as [|c rest IH]; intros Hgt; simpl; [done|].
  apply not_elem_of_cons in Hgt as [Hc Hgt].
  destruct (N.eqb_spec c GT_SIGN) as [->|_]; [done|by apply IH].
Qed.

Lemma stripTags_text pre s :
  LT_SIGN ∉ pre ->
  stripTagsFrom false (pre ++ s) = pre ++ stripTagsFrom false s.
Proof.
  induction pre as [|c pre IH]; intros Hlt; [done|]. simpl.
  apply not_elem_of_cons in Hlt as [Hc Hlt].
  destruct (N.eqb_spec c LT_SIGN) as [->|_]; [done|]. by rewrite IH.
Qed.

(** What the stripping does: the text before the first [<] stays; a tag,
    from a [<] to the next [>], becomes one space and the stripping goes
    on behind it; a [<] that is never closed becomes one space together
    with all that follows.  Hence the text sent to the service holds no
    [<]; stripping does not lengthen a text, leaves a text without [<] as
    it is, and changes nothing when done twice.  The body of a batch stub
    is the stripped body cut at 8000 code units. *)
Theorem sanitized_text (s : jsstring) (e : RawEmail) :
  (∀ pre tag post, LT_SIGN ∉ pre -> GT_SIGN ∉ tag ->
     stripTags (pre ++ LT_SIGN :: tag ++ GT_SIGN :: post)
     = pre ++ 32%N :: stripTags post)
  ∧ (∀ pre rest, LT_SIGN ∉ pre -> GT_SIGN ∉ rest ->
       stripTags (pre ++ LT_SIGN :: rest) = pre ++ [32%N])
  ∧ (LT_SIGN ∉ stripTags s)
  ∧ (length (stripTags s) <= length s)%nat
  ∧ (LT_SIGN ∉ s -> stripTags s = s)
  ∧ stripTags (stripTags s) = stripTags s
  ∧ stub_body (toStub e) = take (Z.to_nat 8000) (stripTags (body e))
  ∧ (LT_SIGN ∉ stub_body (toStub e))
  ∧ (length (stub_body (toStub e)) <= Z.to_nat 8000)%nat
  ∧ (LT_SIGN ∉ body e -> (length (body e) <= Z.to_nat 8000)%nat ->
       stub_body (toStub e) = body e).
Proof.
  split_and!.
  - intros pre tag post Hlt Hgt. unfold stripTags.
    rewrite stripTags_text by done. cbn [stripTagsFrom].
    rewrite N.eqb_refl. by rewrite stripTagsFrom_tag.
  - intros pre rest Hlt Hgt. unfold stripTags.
    rewrite stripTags_text by done. cbn [stripTagsFrom].
    rewrite N.eqb_refl. by rewrite stripTagsFrom_unclosed.
  - apply stripTagsFrom_no_LT.
  - apply stripTagsFrom_length.
  - apply stripTags_id.
  - apply stripTags_id, stripTagsFrom_no_LT.
  - done.
  - cbn [toStub stub_body]. intros (i & Hi & _)%elem_of_take.
    apply list_elem_of_lookup_2 in Hi. by apply stripTagsFrom_no_LT in Hi.
  - cbn [toStub stub_body]. rewrite length_take. lia.
  - intros Hlt Hlen. cbn [toStub stub_body].
    rewrite stripTags_id by done. by apply take_ge.
Qed.

(** ** Gemini service: the client and the requests *)

Lemma getAI_cases API_KEY w :
  (keyMissing API_KEY ∧ aiInstance w = None
   ∧ getAI API_KEY w = (Throw (newError CONFIG_ERROR), w))
  ∨ (∃ ai, getAI API_KEY w
           = (Normal ai, {| aiInstance := Some ai; requests := requests w |})
           ∧ (aiInstance w = Some ai
              ∨ (aiInstance w = None ∧ API_KEY = Some (apiKey ai)
                 ∧ apiKey ai ≠ []))).
Proof.
  unfold getAI, keyMissing.
  destruct w as [[ai|] reqs]; cbn [aiInstance requests].
  - right. exists ai. split; [done|by left].
  - destruct API_KEY as [[|c k]|].
    + left. auto.
    + right. eexists. split; [done|]. right. by cbn [apiKey].
    + left. auto.
Qed.

Lemma batch_world API_KEY generateContent JSON_parse emails w :
  let w' := (analyzeEmailBatch API_KEY generateContent JSON_parse emails w).2 in
  (keyMissing API_KEY ∧ aiInstance w = None ∧ w' = w)
  ∨ (∃ ai, getAI API_KEY w
           = (Normal ai, {| aiInstance := Some ai; requests := requests w |})
           ∧ w' = {| aiInstance := Some ai;
                     requests := requests w ++ [BatchRequest (toStub <$> emails)] |}).
Proof.
  destruct (getAI_cases API_KEY w) as [(Hk & Hai & Hg)|(ai & Hg & _)].
  - left. split; [done|]. split; [done|].
    by rewrite (analyzeEmailBatch_getAI_throws _ _ _ _ _ _ _ Hg).
  - right. exists ai. split; [done|].
    unfold analyzeEmailBatch, tryCatch, analyzeTry, mbind, M_bind, callService,
      throw, liftC, mret, M_ret.
    rewrite Hg. cbn.
    destruct (generateContent ai _) as [response|e]; [|done].
    destruct (text response) as [[|c t]|]; try done.
    by destruct (JSON_parse (c :: t)).
Qed.

Lemma reply_world API_KEY generateContent (email : Email) w :
  let w' := (generateSmartReply API_KEY generateContent email w).2 in
  (keyMissing API_KEY ∧ aiInstance w = None ∧ w' = w)
  ∨ (∃ ai, getAI API_KEY w
           = (Normal ai, {| aiInstance := Some ai; requests := requests w |})
           ∧ w' = {| aiInstance := Some ai;
                     requests := requests w
                       ++ [ReplyRequest (senderName email) (subject email)
                             (stripTags (body email))] |}).
Proof.
  rewrite generateSmartReply_cases.
  destruct (getAI_cases API_KEY w) as [(Hk & Hai & Hg)|(ai & Hg & _)];
    rewrite Hg.
  - by left.
  - right. exists ai. split; [done|]. cbn.
    by destruct (generateContent ai _).
Qed.

(** In every world the two operations can reach, a client that has been
    built holds the configured key, which is not empty. *)
Theorem client_holds_key (API_KEY : option jsstring) (w : World) :
  reachable API_KEY w ->
  ∀ ai, aiInstance w = Some ai -> API_KEY = Some (apiKey ai) ∧ apiKey ai ≠ [].
Proof.
  intros Hr.
  induction Hr as [|gc jp emails w Hr IH|gc email w Hr IH]; [done| |].
  - destruct (batch_world API_KEY gc jp emails w)
      as [(_ & _ & ->)|(ai & Hg & ->)]; [done|].
    intros ai' [= <-].
    destruct (getAI_cases API_KEY w) as [(_ & _ & Hg')|(ai' & Hg' & Hcase)];
      [congruence|].
    rewrite Hg in Hg'. injection Hg' as <-.
    destruct Hcase as [Hai|(_ & ? & ?)]; [by apply IH|done].
  - destruct (reply_world API_KEY gc email w)
      as [(_ & _ & ->)|(ai & Hg & ->)]; [done|].
    intros ai' [= <-].
    destruct (getAI_cases API_KEY w) as [(_ & _ & Hg')|(ai' & Hg' & Hcase)];
      [congruence|].
    rewrite Hg in Hg'. injection Hg' as <-.
    destruct Hcase as [Hai|(_ & ? & ?)]; [by apply IH|done].
Qed.

Lemma client_holds_key_witness :
  let w := (analyzeEmailBatch (Some (lit "k")) rejectingService sampleParse
              [] freshWorld).2 in
  reachable (Some (lit "k")) w
  ∧ aiInstance w = Some {| apiKey := lit "k" |}
  ∧ ∀ ai, aiInstance w = Some ai ->
      Some (lit "k") = Some (apiKey ai) ∧ apiKey ai ≠ [].
Proof.
  intros w.
  assert (reachable (Some (lit "k")) w) as Hr
    by (apply reachable_batch, reachable_init).
  split; [exact Hr|]. split; [reflexivity|].
  exact (client_holds_key (Some (lit "k")) w Hr).
Defined.

(** A call of the batch analysis sends no request when the key is missing
    and no client exists, and exactly one otherwise, the stubs of the
    emails it was given (also when it was given none); an existing client
    is used again, and the earlier requests are kept. *)
Theorem batch_sends_one_request (API_KEY : option jsstring)
    (generateContent : GoogleGenAI -> Request -> Completion Response)
    (JSON_parse : jsstring -> Completion (list Item))
    (emails : list RawEmail) (w : World) :
  let w' := (analyzeEmailBatch API_KEY generateContent JSON_parse emails w).2 in
  (keyMissing API_KEY ∧ aiInstance w = None -> w' = w)
  ∧ (¬ (keyMissing API_KEY ∧ aiInstance w = None) ->
       requests w' = requests w ++ [BatchRequest (toStub <$> emails)]
       ∧ is_Some (aiInstance w'))
  ∧ (∀ ai, aiInstance w = Some ai -> aiInstance w' = Some ai)
  ∧ requests w `prefix_of` requests w'.
Proof.
  intros w'. subst w'.
  destruct (batch_world API_KEY generateContent JSON_parse emails w)
    as [(Hk & Hai & ->)|(ai & Hg & ->)]; split_and!.
  - done.
  - intros Hn. by destruct Hn.
  - done.
  - done.
  - intros [Hk Hai]. rewrite (getAI_missing _ _ Hk Hai) in Hg. done.
  - intros _. split; [done|by eexists].
  - intros ai' Hai'. unfold getAI in Hg. rewrite Hai' in Hg. by injection Hg as <-.
  - by apply prefix_app_r.
Qed.

(** ** Gemini service: the answer *)

Lemma toResultMap_fold (items : list Item) (o : ResultObject) :
  let o' := foldl (fun o item => setResult (item_id item) (item_analysis item) o)
              o items in
  (∀ k, own o' !! k
        = if decide (k = PROTO) then own o !! k
          else match last (filter (fun it => item_id it = k) items) with
               | Some it => Some (item_analysis it)
               | None => own o !! k
               end)
  ∧ proto o'
    = match last (filter (fun it => item_id it = PROTO) items) with
      | Some it => Some (item_analysis it)
      | None => proto o
      end.
Proof.
  revert o. induction items as [|it items IH]; intros o; cbn zeta.
  - split; [|done]. intros k. by case_decide.
  - cbn [foldl]. destruct (IH (setResult (item_id it) (item_analysis it) o))
      as [IHown IHproto]. cbn zeta in IHown, IHproto. clear IH. split.
    + intros k. rewrite IHown, filter_cons. clear IHown IHproto.
      unfold setResult.
      destruct (decide (k = PROTO)) as [->|Hk].
      * destruct (decide (item_id it = PROTO)); [done|].
        cbn [own]. by rewrite lookup_insert_ne.
      * destruct (decide (item_id it = k)) as [Hid|Hid].
        -- destruct (filter _ items) as [|x fl] eqn:Hfl.
           ++ cbn [last]. subst k. rewrite decide_False by done.
              cbn [own]. by rewrite lookup_insert_eq.
           ++ destruct (last (x :: fl)) eqn:Hlast;
                [|by apply last_None in Hlast].
              by rewrite last_cons, Hlast.
        -- destruct (last _); [done|].
           destruct (decide (item_id it = PROTO)); [done|].
           cbn [own]. by rewrite lookup_insert_ne.
    + rewrite IHproto, filter_cons. clear IHown IHproto. unfold setResult.
      destruct (decide (item_id it = PROTO)) as [Hid|Hid].
      * destruct (filter _ items) as [|x fl] eqn:Hfl; [done|].
        destruct (last (x :: fl)) eqn:Hlast; [|by apply last_None in Hlast].
        by rewrite last_cons, Hlast.
      * by destruct (last _).
Qed.

Lemma toResultMap_own (items : list Item) (k : jsstring) :
  k ≠ PROTO ->
  own (toResultMap items) !! k
  = item_analysis <$> last (filter (fun it => item_id it = k) items).
Proof.
  intros Hk. destruct (toResultMap_fold items emptyObject) as [Hown _].
  unfold toResultMap. rewrite Hown, decide_False by done.
  cbn [emptyObject own]. rewrite lookup_empty. by destruct (last _).
Qed.

Lemma toResultMap_own_PROTO (items : list Item) :
  own (toResultMap items) !! PROTO = None.
Proof.
  destruct (toResultMap_fold items emptyObject) as [Hown _].
  unfold toResultMap. by rewrite Hown, decide_True.
Qed.

Lemma toResultMap_proto (items : list Item) :
  proto (toResultMap items)
  = item_analysis <$> last (filter (fun it => item_id it = PROTO) items).
Proof.
  destruct (toResultMap_fold items emptyObject) as [_ Hproto].
  unfold toResultMap. rewrite Hproto. by destruct (last _).
Qed.

Lemma analyzeEmailBatch_answered API_KEY generateContent JSON_parse
    emails w ai w1 response :
  getAI API_KEY w = (Normal ai, w1) ->
  generateContent ai (BatchRequest (toStub <$> emails)) = Normal response ->
  analyzeEmailBatch API_KEY generateContent JSON_parse emails w
  = (match text response with
     | Some (c :: t) =>
         match JSON_parse (c :: t) with
         | Normal items => Normal (toResultMap items)
         | Throw e => Throw (analyzeCatch e)
         end
     | _ => Throw (newError NO_DATA_ERROR)
     end,
     {| aiInstance := aiInstance w1;
        requests := requests w1 ++ [BatchRequest (toStub <$> emails)] |}).
Proof.
  intros Hai Hgc.
  unfold analyzeEmailBatch, tryCatch, analyzeTry, mbind, M_bind, callService,
    throw, liftC, mret, M_ret.
  rewrite Hai, Hgc.
  destruct (text response) as [[|c t]|]; try done.
  by destruct (JSON_parse (c :: t)).
Qed.

(** When the service answers with a text that parses to a list of items,
    the batch analysis returns, after one request, the object on which
    every item was assigned under its [id], in order.  For an [id] other
    than [__proto__] the object has the own property [id] exactly when an
    item has that [id], and it holds the analysis of the last such item.
    An item named [__proto__] creates no own property: it replaces the
    prototype of the object, the last such item winning.  Reading
    [results[k]]: the analysis of the last item named [k] when there is
    one; when no item is named [k] or [__proto__], nothing for a [k] that
    [Object.prototype] does not define and the inherited member for one
    that it defines; [results.__proto__] is never undefined. *)
Theorem batch_result_map (API_KEY : option jsstring)
    (generateContent : GoogleGenAI -> Request -> Completion Response)
    (JSON_parse : jsstring -> Completion (list Item))
    (emails : list RawEmail) (w w1 : World) (ai : GoogleGenAI)
    (response : Response) (t : jsstring) (items : list Item) :
  getAI API_KEY w = (Normal ai, w1) ->
  generateContent ai (BatchRequest (toStub <$> emails)) = Normal response ->
  text response = Some t -> t ≠ [] ->
  JSON_parse t = Normal items ->
  let named k := filter (fun it => item_id it = k) items in
  ∃ results,
    analyzeEmailBatch API_KEY generateContent JSON_parse emails w
    = (Normal results,
       {| aiInstance := aiInstance w1;
          requests := requests w1 ++ [BatchRequest (toStub <$> emails)] |})
    ∧ (∀ k, k ≠ PROTO -> own results !! k = item_analysis <$> last (named k))
    ∧ own results !! PROTO = None
    ∧ proto results = item_analysis <$> last (named PROTO)
    ∧ (∀ k it, k ≠ PROTO -> last (named k) = Some it ->
         readResult k results = Some (IsAnalysis (item_analysis it)))
    ∧ (∀ k, k ≠ PROTO -> named k = [] -> named PROTO = [] ->
         readResult k results
         = if bool_decide (k ∈ objectPrototypeNames)
           then Some (NotAnalysis (Builtin k)) else None)
    ∧ readResult PROTO results
      = Some (match last (named PROTO) with
              | Some it => IsAnalysis (item_analysis it)
              | None => NotAnalysis ObjectPrototype
              end).
Proof.
  intros Hai Hgc Ht Hne Hparse named. exists (toResultMap items). split_and!.
  - rewrite (analyzeEmailBatch_answered _ _ _ _ _ _ _ _ Hai Hgc), Ht.
    destruct t as [|c t]; [done|]. by rewrite Hparse.
  - apply toResultMap_own.
  - apply toResultMap_own_PROTO.
  - apply toResultMap_proto.
  - intros k it Hk Hlast. unfold readResult.
    rewrite toResultMap_own by done. fold (named k). by rewrite Hlast.
  - intros k Hk Hnone Hproto. unfold readResult.
    rewrite toResultMap_own by done. fold (named k). rewrite Hnone.
    cbn [last fmap option_fmap option_map]. rewrite decide_False by done.
    rewrite toResultMap_proto. fold (named PROTO). by rewrite Hproto.
  - unfold readResult. rewrite toResultMap_own_PROTO, decide_True by done.
    rewrite toResultMap_proto. fold (named PROTO). by destruct (last _).
Qed.

Lemma batch_result_map_witness :
  ∃ results,
    analyzeEmailBatch (Some (lit "k")) answeringService sampleParse
      (fields <$> sampleEmails) freshWorld
    = (Normal results,
       {| aiInstance := Some {| apiKey := lit "k" |};
          requests := [BatchRequest (toStub <$> (fields <$> sampleEmails))] |})
    ∧ readResult (lit "a") results = Some (IsAnalysis (sampleAnalysis 90))
    ∧ readResult (lit "b") results = None
    ∧ readResult (lit "toString") results
      = Some (NotAnalysis (Builtin (lit "toString"))).
Proof.
  destruct (batch_result_map (Some (lit "k")) answeringService sampleParse
              (fields <$> sampleEmails) freshWorld
              {| aiInstance := Some {| apiKey := lit "k" |}; requests := [] |}
              {| apiKey := lit "k" |} {| text := Some (lit "[...]") |}
              (lit "[...]") sampleItems
              eq_refl eq_refl eq_refl ltac:(by vm_compute) eq_refl)
    as (results & Hcall & _ & _ & _ & Hnamed & Habsent & _).
  exists results. split; [exact Hcall|]. split_and!.
  - exact (Hnamed (lit "a") _ ltac:(by vm_compute) eq_refl).
  - exact (Habsent (lit "b") ltac:(by vm_compute) eq_refl eq_refl).
  - exact (Habsent (lit "toString") ltac:(by vm_compute) eq_refl eq_refl).
Defined.

(** ** Running the analysis: alerts and effects *)

(** The alert of [handleRunAI] on a working set that is not empty.  The
    key-setup alert around the configuration error when the key is
    missing.  For a rejection with an [error] property: the key-security
    alert around the leaked-key error when [error.code] is 403 or
    [error.message] tells of a leak; else the key-setup alert around the
    invalid-key error when [error.code] is 401 or [error.message] names
    the API key.  For a rejection without [error] property the alert is
    chosen from the rejection's own message, whatever status it reports:
    the plain failure alert around [Unknown error] when the rejection is
    no [Error]; else the key-security alert when the message tells of a
    leak; else the key-setup alert when it names the API key, says
    [not configured] or [Invalid]; else the plain failure alert.  The
    plain failure alert when the service answers without text. *)
Theorem runAI_alerts (getTime : jsstring -> option Z)
    (API_KEY : option jsstring)
    (generateContent : GoogleGenAI -> Request -> Completion Response)
    (JSON_parse : jsstring -> Completion (list Item))
    (JSON_stringify : list Email -> jsstring)
    (setItemThrows : gmap jsstring jsstring -> jsstring -> jsstring -> bool)
    (st : AppState) (w : World) :
  st_emails st ≠ [] ->
  let after := handleRunAI getTime API_KEY generateContent JSON_parse
                 JSON_stringify setItemThrows st w in
  let req := BatchRequest
               (toStub <$> (fields <$> emailsToAnalyze getTime (st_emails st))) in
  let shows a := st_alerts after.1 = st_alerts st ++ [a] in
  (keyMissing API_KEY -> aiInstance w = None ->
     shows (AlertKeySetup CONFIG_ERROR))
  ∧ (∀ ai w1 e body, getAI API_KEY w = (Normal ai, w1) ->
       generateContent ai req = Throw e -> error e = Some body ->
       (code body = Some 403 -> shows (AlertKeySecurity LEAKED_ERROR))
       ∧ (∀ m, message body = Some m -> contains (lit "leaked") m ->
            shows (AlertKeySecurity LEAKED_ERROR))
       ∧ (code body ≠ Some 403 ->
          (∀ m, message body = Some m -> ¬ contains (lit "leaked") m) ->
            (code body = Some 401 -> shows (AlertKeySetup INVALID_KEY_ERROR))
            ∧ (∀ m, message body = Some m -> contains (lit "API key") m ->
                 shows (AlertKeySetup INVALID_KEY_ERROR))))
  ∧ (∀ ai w1 e, getAI API_KEY w = (Normal ai, w1) ->
       generateContent ai req = Throw e -> error e = None ->
       let msg := errorMessage e in
       (instanceofError e = false -> shows (AlertFailed (lit "Unknown error")))
       ∧ (instanceofError e = true -> contains (lit "leaked") msg ->
            shows (AlertKeySecurity msg))
       ∧ (instanceofError e = true -> ¬ contains (lit "leaked") msg ->
            contains (lit "API key") msg ∨ contains (lit "not configured") msg
            ∨ contains (lit "Invalid") msg ->
            shows (AlertKeySetup msg))
       ∧ (instanceofError e = true -> ¬ contains (lit "leaked") msg ->
            ¬ contains (lit "API key") msg ->
            ¬ contains (lit "not configured") msg ->
            ¬ contains (lit "Invalid") msg ->
            shows (AlertFailed msg)))
  ∧ (∀ ai w1 response, getAI API_KEY w = (Normal ai, w1) ->
       generateContent ai req = Normal response -> blank (text response) ->
       shows (AlertFailed NO_DATA_ERROR)).
Proof.
  intros Hne after req shows. subst shows after. cbn beta.
  rewrite handleRunAI_cases by done. fold req. split_and!.
  - intros Hk Hai.
    rewrite (analyzeEmailBatch_getAI_throws _ _ _ _ w _ w)
      by (by apply getAI_missing).
    done.
  - intros ai w1 e body Hai Hgc He. subst req.
    rewrite (analyzeEmailBatch_rejected _ _ _ _ w ai w1 e Hai Hgc).
    cbn [fst st_alerts].
    destruct (analyzeCatch_fields e) as [_ Hbody].
    destruct (Hbody body He) as (H403 & Hleak & Hrest). split_and!.
    + intros Hc. by rewrite (H403 Hc).
    + intros m Hm Hcon. by rewrite (Hleak m Hm Hcon).
    + intros Hn403 Hnleak.
      destruct (Hrest Hn403 Hnleak) as (H401 & Hkey & _). split.
      * intros Hc. by rewrite (H401 Hc).
      * intros m Hm Hcon. by rewrite (Hkey m Hm Hcon).
  - intros ai w1 e Hai Hgc He msg. subst req msg.
    rewrite (analyzeEmailBatch_rejected _ _ _ _ w ai w1 e Hai Hgc).
    cbn [fst st_alerts].
    destruct (analyzeCatch_fields e) as [Hsame _]. rewrite (Hsame He).
    destruct (alertFor_spec e) as (Hleak & Hsetup & Hplain). split_and!.
    + intros Hinst. unfold alertFor. by rewrite Hinst.
    + intros Hinst Hcon. rewrite Hinst in Hleak. by rewrite Hleak.
    + intros Hinst Hno Hsome. rewrite Hinst in Hsetup. by rewrite Hsetup.
    + intros Hinst H1 H2 H3 H4. rewrite Hinst in Hplain. by rewrite Hplain.
  - intros ai w1 response Hai Hgc Hblank. subst req.
    rewrite (analyzeEmailBatch_answered _ _ _ _ w ai w1 response Hai Hgc).
    by destruct Hblank as [-> | ->].
Qed.

Lemma runAI_alerts_witness :
  st_emails sampleState ≠ []
  ∧ st_alerts
      (handleRunAI sampleTime None rejectingService sampleParse
         sampleStringify roomyStore sampleState freshWorld).1
    = st_alerts sampleState ++ [AlertKeySetup CONFIG_ERROR].
Proof.
  assert (st_emails sampleState ≠ []) as Hne by done.
  split; [exact Hne|].
  exact (proj1 (runAI_alerts sampleTime None rejectingService sampleParse
                  sampleStringify roomyStore sampleState freshWorld Hne)
           ltac:(by left) eq_refl).
Defined.

(** What [handleRunAI] changes: nothing at all on an empty working set;
    otherwise it ends with [isAnalyzing] unset, has sent at most one
    request, and either went to the dashboard with no alert and called
    [db.saveEmails] on the new working set and the local store (so the
    store holds the new working set under the key of the application, or
    is as it was when [setItem] throws), or shows exactly one alert and
    keeps the tab, the working set and the local store.  The ids of the
    working set and their order are never changed. *)
Theorem runAI_effects (getTime : jsstring -> option Z)
    (API_KEY : option jsstring)
    (generateContent : GoogleGenAI -> Request -> Completion Response)
    (JSON_parse : jsstring -> Completion (list Item))
    (JSON_stringify : list Email -> jsstring)
    (setItemThrows : gmap jsstring jsstring -> jsstring -> jsstring -> bool)
    (st : AppState) (w : World) :
  let after := handleRunAI getTime API_KEY generateContent JSON_parse
                 JSON_stringify setItemThrows st w in
  let written := JSON_stringify (st_emails after.1) in
  (st_emails st = [] -> after = (st, w))
  ∧ (st_emails st ≠ [] ->
       st_isAnalyzing after.1 = false
       ∧ (requests after.2 = requests w
          ∨ ∃ req, requests after.2 = requests w ++ [req])
       ∧ ((st_alerts after.1 = st_alerts st
           ∧ st_activeTab after.1 = DashboardTab
           ∧ st_localStorage after.1
             = saveEmails JSON_stringify setItemThrows (st_emails after.1)
                 (st_localStorage st)
           ∧ st_localStorage after.1
             = if setItemThrows (st_localStorage st) DB_KEY written
               then st_localStorage st
               else <[DB_KEY := written]> (st_localStorage st))
          ∨ (∃ a, st_alerts after.1 = st_alerts st ++ [a]
                  ∧ st_activeTab after.1 = st_activeTab st
                  ∧ st_localStorage after.1 = st_localStorage st
                  ∧ st_emails after.1 = st_emails st)))
  ∧ ids (st_emails after.1) = ids (st_emails st).
Proof.
  intros after written. subst written after.
  assert (∀ results, ids (applyResult results <$> st_emails st)
                     = ids (st_emails st)) as Hids.
  { intros results. unfold ids. by rewrite <- list_fmap_compose. }
  destruct (decide (st_emails st = [])) as [Hnil|Hne].
  - unfold handleRunAI. rewrite Hnil. split_and!; try done.
    cbn. by rewrite Hnil.
  - rewrite handleRunAI_cases by done.
    pose proof (batch_world API_KEY generateContent JSON_parse
                  (fields <$> emailsToAnalyze getTime (st_emails st)) w) as Hw.
    destruct (analyzeEmailBatch _ _ _ _ w) as [[results|e] w'];
      cbn [fst snd] in *; (split_and!; [done| |]).
    + intros _. split_and!; [done| |left; split_and!; try done].
      * destruct Hw as [(_ & _ & ->)|(ai & _ & ->)]; [by left|right; eauto].
    + apply Hids.
    + intros _. split_and!; [done| |right; by eexists].
      destruct Hw as [(_ & _ & ->)|(ai & _ & ->)]; [by left|right; eauto].
    + done.
Qed.

(** What a successful analysis does to each email of the working set:
    the fields stay, and the analysis becomes the one the results hold
    under the [id] of the email as an own property.  When the results
    hold no such property and have the prototype of a fresh object, the
    analysis stays as it was for an [id] that is neither [__proto__] nor
    a name that [Object.prototype] defines, and becomes the inherited
    member for a name that [Object.prototype] defines.  An analysis that
    was set is never unset. *)
Theorem runAI_per_email (getTime : jsstring -> option Z)
    (API_KEY : option jsstring)
    (generateContent : GoogleGenAI -> Request -> Completion Response)
    (JSON_parse : jsstring -> Completion (list Item))
    (JSON_stringify : list Email -> jsstring)
    (setItemThrows : gmap jsstring jsstring -> jsstring -> jsstring -> bool)
    (st : AppState) (w w' : World) (results : ResultObject) :
  st_emails st ≠ [] ->
  analyzeEmailBatch API_KEY generateContent JSON_parse
    (fields <$> emailsToAnalyze getTime (st_emails st)) w
  = (Normal results, w') ->
  let after := handleRunAI getTime API_KEY generateContent JSON_parse
                 JSON_stringify setItemThrows st w in
  length (st_emails after.1) = length (st_emails st)
  ∧ ∀ i (email : Email), st_emails st !! i = Some email ->
      ∃ out : Email, st_emails after.1 !! i = Some out
        ∧ fields out = fields email
        ∧ (∀ a, own results !! id email = Some a ->
             analysis out = Some (IsAnalysis a))
        ∧ (own results !! id email = None -> proto results = None ->
             id email ≠ PROTO -> id email ∉ objectPrototypeNames ->
             analysis out = analysis email)
        ∧ (own results !! id email = None -> proto results = None ->
             id email ∈ objectPrototypeNames ->
             analysis out = Some (NotAnalysis (Builtin (id email))))
        ∧ (is_Some (analysis email) -> is_Some (analysis out)).
Proof.
  intros Hne Hbatch after. subst after.
  rewrite handleRunAI_cases, Hbatch by done. cbn [fst st_emails].
  split; [apply length_fmap|].
  intros i email Hi. exists (applyResult results email).
  rewrite list_lookup_fmap, Hi. split; [done|]. split; [done|].
  cbn [applyResult analysis]. unfold readResult. split_and!.
  - by intros a ->.
  - intros -> -> Hproto Hnames. rewrite decide_False by done.
    cbn [mbind option_bind]. by rewrite bool_decide_eq_false_2.
  - intros -> -> Hnames.
    assert (id email ≠ PROTO) as Hproto.
    { intros Heq. rewrite Heq in Hnames. revert Hnames.
      apply (bool_decide_eq_false_1 (PROTO ∈ objectPrototypeNames)).
      by vm_compute. }
    rewrite decide_False by done. cbn [mbind option_bind].
    by rewrite bool_decide_eq_true_2.
  - intros Hsome. destruct (own results !! id email); [by eexists|].
    destruct (decide _); [by eexists|].
    destruct (proto results ≫= truthyField (id email)); [by eexists|].
    by destruct (bool_decide _); [eexists|].
Qed.

Lemma runAI_per_email_witness :
  let after := handleRunAI sampleTime (Some (lit "k")) answeringService
                 sampleParse sampleStringify roomyStore sampleState freshWorld in
  length (st_emails after.1) = length sampleEmails
  ∧ ∀ i (email : Email), sampleEmails !! i = Some email ->
      ∃ out : Email, st_emails after.1 !! i = Some out
        ∧ fields out = fields email
        ∧ (∀ a, own (toResultMap sampleItems) !! id email = Some a ->
             analysis out = Some (IsAnalysis a))
        ∧ (own (toResultMap sampleItems) !! id email = None ->
           proto (toResultMap sampleItems) = None ->
             id email ≠ PROTO -> id email ∉ objectPrototypeNames ->
             analysis out = analysis email)
        ∧ (own (toResultMap sampleItems) !! id email = None ->
           proto (toResultMap sampleItems) = None ->
             id email ∈ objectPrototypeNames ->
             analysis out = Some (NotAnalysis (Builtin (id email))))
        ∧ (is_Some (analysis email) -> is_Some (analysis out)).
Proof.
  exact (runAI_per_email sampleTime (Some (lit "k")) answeringService
           sampleParse sampleStringify roomyStore sampleState freshWorld
           {| aiInstance := Some {| apiKey := lit "k" |};
              requests := [BatchRequest
                             (toStub <$> (fields <$> emailsToAnalyze sampleTime
                                                       sampleEmails))] |}
           (toResultMap sampleItems)
           ltac:(done) ltac:(by vm_compute)).
Defined.

(** ** Build configuration *)

(** The key the build defines: [API_KEY] when it is set and not empty,
    else [GEMINI_API_KEY] when that is, else the empty string.  On a
    fresh page the batch analysis stops with the configuration error,
    the world untouched, exactly when neither variable is set to a
    string that is not empty. *)
Theorem api_key_resolution (env_API_KEY env_GEMINI_API_KEY : option jsstring)
    (generateContent : GoogleGenAI -> Request -> Completion Response)
    (JSON_parse : jsstring -> Completion (list Item))
    (emails : list RawEmail) :
  let key := definedApiKey env_API_KEY env_GEMINI_API_KEY in
  (¬ blank env_API_KEY -> key = env_API_KEY)
  ∧ (blank env_API_KEY -> ¬ blank env_GEMINI_API_KEY ->
       key = env_GEMINI_API_KEY)
  ∧ (keyMissing key ↔ blank env_API_KEY ∧ blank env_GEMINI_API_KEY)
  ∧ (analyzeEmailBatch key generateContent JSON_parse emails freshWorld
     = (Throw (newError CONFIG_ERROR), freshWorld)
     ↔ blank env_API_KEY ∧ blank env_GEMINI_API_KEY).
Proof.
  intros key. subst key. unfold definedApiKey.
  assert (keyMissing (Some (strOr env_API_KEY (strOr env_GEMINI_API_KEY [])))
          ↔ blank env_API_KEY ∧ blank env_GEMINI_API_KEY) as Hmissing.
  { unfold keyMissing, blank.
    destruct env_API_KEY as [[|c s]|], env_GEMINI_API_KEY as [[|c' s']|];
      cbn; split; try (intros [?|?]; done); try (intros [[?|?] [?|?]]; done);
      auto. }
  split_and!.
  - apply strOr_not_blank.
  - intros Ha Hg. rewrite (strOr_blank _ _ Ha). by apply strOr_not_blank.
  - done.
  - rewrite <- Hmissing. split.
    + intros Hb.
      destruct (batch_world
                  (Some (strOr env_API_KEY (strOr env_GEMINI_API_KEY [])))
                  generateContent JSON_parse emails freshWorld)
        as [(Hk & _)|(ai & _ & Hw)]; [done|].
      rewrite Hb in Hw. cbn in Hw. by injection Hw.
    + intros Hk.
      by rewrite (analyzeEmailBatch_getAI_throws _ _ _ _ freshWorld _ freshWorld)
        by (by apply getAI_missing).
Qed.

(** ** Threads: counts, selection, latest messages *)

Lemma threads_keys getTime (emails : list Email) ts :
  threads getTime emails = Normal ts ->
  ∃ keys : list jsstring,
    NoDup keys
    ∧ (∀ e, e ∈ emails -> threadKey e ∈ keys)
    ∧ Forall2 (fun k t => t ≠ []
                          ∧ t ≡ₚ filter (fun e => threadKey e = k) emails)
        keys ts.
Proof.
  intros Hts. destruct (threads_groups getTime emails _ Hts) as (g & Hg & ->).
  destruct (groupEmails_spec emails) as (Hnd & [Hgroups Hcover] & _).
  exists g.*1. split_and!.
  - by rewrite Hg.
  - intros e He. rewrite Hg. by apply Hcover.
  - apply Forall2_fmap, Forall_Forall2_diag.
    rewrite Hg. eapply Forall_impl; [apply Hgroups|].
    intros [k v] [Hne Hv]. cbn [fst snd] in *. split.
    + intros Hnil. apply Hne, Permutation_nil_r.
      rewrite <- Hnil. by rewrite sortBy_Permutation.
    + by rewrite sortBy_Permutation, <- Hv.
Qed.

Lemma threads_nonempty getTime (emails : list Email) ts t :
  threads getTime emails = Normal ts -> t ∈ ts -> t ≠ [].
Proof.
  rewrite threads_Normal. intros [= <-] Ht%elem_of_sortBy.
  by eapply threadList_nonempty.
Qed.

(** There are as many threads as distinct grouping keys, hence no more
    than emails, and none exactly when the working set is empty. *)
Theorem thread_count (getTime : jsstring -> option Z) (emails : list Email) :
  ∃ ts, threads getTime emails = Normal ts
    ∧ length ts = size (list_to_set (threadKey <$> emails) : gset jsstring)
    ∧ (length ts <= length emails)%nat
    ∧ (ts = [] ↔ emails = []).
Proof.
  eexists. split; [apply threads_Normal|].
  pose proof (threads_Normal getTime emails) as Hts.
  set (ts := sortBy _ _) in *. clearbody ts.
  destruct (threads_keys _ _ _ Hts) as (keys & Hnd & Hcover & Hf2).
  pose proof (threads_flatten _ _ _ Hts) as Hflat.
  assert ((length ts <= length emails)%nat) as Hlen.
  { rewrite <- Hflat. clear -Hf2.
    induction Hf2 as [|k t keys ts [Hne _] _ IH]; [done|].
    cbn [concat]. rewrite length_app. destruct t; [done|]. cbn. lia. }
  split_and!.
  - rewrite <- (Forall2_length _ _ _ Hf2).
    rewrite <- (size_list_to_set (C:=gset jsstring) keys) by done.
    f_equal. apply set_eq. intros k. rewrite !elem_of_list_to_set. split.
    + intros [i Hi]%list_elem_of_lookup.
      destruct (Forall2_lookup_l _ _ _ _ _ Hf2 Hi) as (t & _ & Hne & Hperm).
      destruct t as [|e t]; [done|].
      assert (e ∈ filter (fun e => threadKey e = k) emails) as He
        by (rewrite <- Hperm; left).
      apply list_elem_of_filter in He as [<- He].
      by apply list_elem_of_fmap_2.
    + intros (e & -> & He)%list_elem_of_fmap. by apply Hcover.
  - done.
  - split.
    + intros Hnil. rewrite Hnil in Hflat. by apply Permutation_nil in Hflat.
    + intros Hnil. rewrite Hnil in Hlen. destruct ts; [done|]. cbn in Hlen. lia.
Qed.

Lemma selectedThread_keys (emails : list Email) keys ts sel :
  Forall2 (fun k t => t ≠ []
                      ∧ t ≡ₚ filter (fun e => threadKey e = k) emails)
    keys ts ->
  ∃ r, selectedThread ts sel = Normal r
    ∧ (∀ t, r = Some t ->
         t ∈ ts ∧ ∃ k, sel = Some k ∧ k ∈ keys
                       ∧ t ≡ₚ filter (fun e => threadKey e = k) emails)
    ∧ (r = None -> ∀ k, k ∈ keys -> Some k ≠ sel).
Proof.
  induction 1 as [|k t keys ts [Hne Hperm] _ (r & Hr & Hsome & Hnone)].
  - exists None. split; [done|]. split; [done|]. by intros _ k ?%elem_of_nil.
  - cbn [selectedThread]. destruct t as [|first t]; [done|]. cbn [head].
    assert (threadKey first = k) as Hk.
    { assert (first ∈ filter (fun e => threadKey e = k) emails) as Hin
        by (rewrite <- Hperm; left).
      by apply list_elem_of_filter in Hin as [? _]. }
    rewrite Hk. case_decide as Hsel.
    + exists (Some (first :: t)). split; [done|]. split; [|done].
      intros ? [= <-]. split; [left|]. exists k. split; [done|].
      split; [left|done].
    + exists r. split; [done|]. split.
      * intros t' Ht'. destruct (Hsome t' Ht') as (Hin & k' & ? & ? & ?).
        split; [by right|]. exists k'. split; [done|]. split; [by right|done].
      * intros Hrn k' [->|Hk']%elem_of_cons; [done|by apply Hnone].
Qed.

(** The selected thread of the view: the search does not throw; it finds
    a thread exactly when some email of the working set has the selected
    key, and the thread found holds exactly the emails with that key. *)
Theorem selectedThread_found (getTime : jsstring -> option Z)
    (emails : list Email) (selectedThreadId : option jsstring) :
  ∃ ts r, threads getTime emails = Normal ts
    ∧ selectedThread ts selectedThreadId = Normal r
    ∧ (∀ t, r = Some t ->
         t ∈ ts ∧ ∃ k, selectedThreadId = Some k
                       ∧ t ≡ₚ filter (fun e => threadKey e = k) emails)
    ∧ (r = None ↔ ∀ e, e ∈ emails -> Some (threadKey e) ≠ selectedThreadId).
Proof.
  pose proof (threads_Normal getTime emails) as Hts.
  set (ts := sortBy _ _) in *. clearbody ts.
  destruct (threads_keys _ _ _ Hts) as (keys & Hnd & Hcover & Hf2).
  destruct (selectedThread_keys emails keys ts selectedThreadId Hf2)
    as (r & Hr & Hsome & Hnone).
  exists ts, r. split; [done|]. split; [done|]. split.
  - intros t Ht. destruct (Hsome t Ht) as (Hin & k & ? & _ & ?).
    split; [done|]. by exists k.
  - split.
    + intros Hrn e He. by apply Hnone, Hcover.
    + intros Hno. destruct r as [t|]; [|done].
      destruct (Hsome t eq_refl) as (Hin & k & -> & _ & Hperm).
      pose proof (threads_nonempty _ _ _ _ Hts Hin) as Hne.
      destruct t as [|e t]; [done|].
      assert (e ∈ filter (fun e => threadKey e = k) emails) as He
        by (rewrite <- Hperm; left).
      apply list_elem_of_filter in He as [Hk He].
      destruct (Hno e He). by rewrite Hk.
Qed.

Lemma StronglySorted_snoc {A} (R : A -> A -> Prop) (l : list A) (x : A) :
  StronglySorted R (l ++ [x]) -> Forall (fun y => R y x) l.
Proof.
  induction l as [|y l IH]; [constructor|].
  cbn. intros [Hs Hy]%StronglySorted_inv. constructor; [|by apply IH].
  rewrite Forall_forall in Hy. apply Hy, elem_of_app. right. left.
Qed.

Lemma threads_each_sorted getTime (emails : list Email) ts :
  validDates getTime emails -> threads getTime emails = Normal ts ->
  Forall (StronglySorted (timeLe getTime)) ts.
Proof.
  intros Hvalid Hts.
  destruct (threads_groups getTime emails _ Hts) as (g & Hg & ->).
  destruct (groupEmails_spec emails) as (_ & [Hgroups _] & _).
  apply Forall_fmap. rewrite Hg.
  eapply Forall_impl; [apply Hgroups|].
  intros [k v] [_ Hv]. cbn [fst snd compose] in *.
  apply (sorted_group getTime v).
  intros e He. apply Hvalid. rewrite Hv in He.
  by apply list_elem_of_filter in He as [_ He].
Qed.

(** On a working set whose dates all parse, the last message of every
    thread, which is the one shown in the list and sent to the analysis,
    is a most recent one: no message of the thread is received later. *)
Theorem latest_is_most_recent (getTime : jsstring -> option Z)
    (emails : list Email) :
  validDates getTime emails ->
  ∃ ts, threads getTime emails = Normal ts
    ∧ ∀ t, t ∈ ts ->
        ∃ latest : Email, last t = Some latest
          ∧ ∀ e : Email, e ∈ t -> timeLe getTime e latest.
Proof.
  intros Hvalid. pose proof (threads_Normal getTime emails) as Hts.
  set (ts := sortBy _ _) in *. clearbody ts.
  exists ts. split; [done|]. intros t Ht.
  pose proof (threads_each_sorted _ _ _ Hvalid Hts) as Hsorted.
  rewrite Forall_forall in Hsorted. specialize (Hsorted t Ht).
  destruct (proj2 (last_is_Some t) (threads_nonempty _ _ _ _ Hts Ht))
    as [latest Hl].
  exists latest. split; [done|].
  apply last_Some in Hl as [l ->].
  apply StronglySorted_snoc in Hsorted. rewrite Forall_forall in Hsorted.
  intros e [He|He%list_elem_of_singleton]%elem_of_app; [by apply Hsorted|].
  subst e.
  destruct (Hvalid latest) as [tl Htl].
  { eapply threads_elem; [apply Hts|apply Ht|].
    apply elem_of_app. right. left. }
  exists tl, tl. by split_and!.
Qed.

Lemma latest_is_most_recent_witness :
  validDates sampleTime sampleEmails
  ∧ ∃ ts, threads sampleTime sampleEmails = Normal ts
      ∧ ∀ t, t ∈ ts ->
          ∃ latest : Email, last t = Some latest
            ∧ ∀ e : Email, e ∈ t -> timeLe sampleTime e latest.
Proof.
  split; [exact sampleEmails_valid|].
  exact (latest_is_most_recent sampleTime sampleEmails sampleEmails_valid).
Defined.

Lemma filter_all {A} (P : A -> Prop) `{!∀ x, Decision (P x)} (l : list A) :
  Forall P l -> filter P l = l.
Proof.
  induction 1 as [|x l Hx _ IH]; [done|].
  by rewrite filter_cons, decide_True, IH.
Qed.

Lemma filter_none {A} (P : A -> Prop) `{!∀ x, Decision (P x)} (l : list A) :
  Forall (fun x => ¬ P x) l -> filter P l = [].
Proof.
  induction 1 as [|x l Hx _ IH]; [done|].
  by rewrite filter_cons, decide_False, IH.
Qed.

(** The threads as what comes before the last message and the last
    messages themselves. *)
Lemma concat_lasts {A} (ts : list (list A)) :
  (∀ t, t ∈ ts -> t ≠ []) ->
  length (omap last ts) = length ts
  ∧ ∃ rest, concat ts ≡ₚ rest ++ omap last ts.
Proof.
  induction ts as [|t ts IH]; intros Hne.
  - split; [done|]. by exists [].
  - destruct IH as [Hlen [rest Hrest]]; [intros t' Ht'; apply Hne; by right|].
    destruct (proj2 (last_is_Some t)) as [x Hx]; [apply Hne; left|].
    cbn [omap list_omap]. rewrite Hx. cbn [length concat]. split; [by f_equal|].
    apply last_Some in Hx as [t' ->]. exists (t' ++ rest).
    rewrite Hrest, <- !(assoc_L (++)). f_equiv. cbn.
    by rewrite Permutation_middle.
Qed.

(** The emails sent to the analysis hold the last message of every
    thread; when the ids of the working set are distinct they are exactly
    these messages, one per thread. *)
Theorem one_email_per_thread (getTime : jsstring -> option Z)
    (emails : list Email) :
  ∃ ts, threads getTime emails = Normal ts
    ∧ (∀ (t : list Email) (latest : Email),
         t ∈ ts -> last t = Some latest ->
         latest ∈ emailsToAnalyze getTime emails)
    ∧ (NoDup (ids emails) ->
         emailsToAnalyze getTime emails ≡ₚ omap last ts
         ∧ length (emailsToAnalyze getTime emails) = length ts).
Proof.
  pose proof (threads_Normal getTime emails) as Hts.
  set (ts := sortBy _ _) in *. clearbody ts. exists ts. split; [done|].
  unfold emailsToAnalyze, latestEmailIds. rewrite Hts.
  assert (omap (fun t : list Email => (fun e : Email => id e) <$> last t) ts
          = ids (omap last ts)) as Hids.
  { unfold ids. clear. induction ts as [|t ts IH]; [done|].
    cbn [omap list_omap]. destruct (last t); cbn; by rewrite IH. }
  rewrite Hids. split.
  - intros t latest Ht Hl. apply list_elem_of_filter. split.
    + apply elem_of_list_to_set. unfold ids.
      apply (list_elem_of_fmap_2 (fun e : Email => id e)).
      apply list_elem_of_omap. by exists t.
    + eapply threads_elem; [apply Hts|apply Ht|by apply last_Some_elem_of].
  - intros Hnd.
    destruct (concat_lasts ts) as [Hlen [rest Hrest]];
      [intros t Ht; by eapply threads_nonempty|].
    pose proof (threads_flatten _ _ _ Hts) as Hflat.
    assert (emails ≡ₚ rest ++ omap last ts) as Hperm by by rewrite <- Hflat.
    assert (filter (fun e : Email => id e ∈ (list_to_set (ids (omap last ts))
                                              : gset jsstring)) emails
            ≡ₚ omap last ts) as Hfilter.
    { rewrite Hperm, filter_app.
      unfold ids in Hnd. rewrite Hperm, fmap_app in Hnd.
      apply NoDup_app in Hnd as (_ & Hdisj & _).
      rewrite filter_none, filter_all; [done| |].
      - apply Forall_forall. intros e He. apply elem_of_list_to_set.
        by apply (list_elem_of_fmap_2 (fun e : Email => id e)).
      - apply Forall_forall. intros e He Hin.
        apply elem_of_list_to_set in Hin.
        apply (Hdisj (id e)); [|done].
        by apply (list_elem_of_fmap_2 (fun e : Email => id e)). }
    split; [done|]. by rewrite Hfilter.
Qed.

(** ** Merge and sync *)

(** The merge never invents an analysis: the result is as long as the
    incoming list, every analysis in it is the analysis of a record of
    [current] with the same [id], and nothing has an analysis when
    [current] is empty or holds none. *)
Theorem merge_never_invents (current : list Email) (incoming : list RawEmail) :
  length (mergeEmails current incoming) = length incoming
  ∧ (∀ (out : Email) a, out ∈ mergeEmails current incoming ->
       analysis out = Some a ->
       ∃ e : Email, e ∈ current ∧ id e = id out ∧ analysis e = Some a)
  ∧ (Forall (fun e => analysis e = None) current ->
       Forall (fun out => analysis out = None) (mergeEmails current incoming))
  ∧ mergeEmails [] incoming
    = (fun raw => {| fields := raw; analysis := None |}) <$> incoming.
Proof.
  assert (∀ (out : Email) a, out ∈ mergeEmails current incoming ->
            analysis out = Some a ->
            ∃ e : Email, e ∈ current ∧ id e = id out ∧ analysis e = Some a)
    as Hfrom.
  { intros out a Hout Ha. unfold mergeEmails in Hout.
    apply list_elem_of_fmap in Hout as (raw & -> & _).
    rewrite analysis_mergeOne, currentMap_lookup in Ha.
    rewrite fields_mergeOne.
    destruct (last _) as [e|] eqn:Hl; [|done].
    apply last_Some_elem_of, list_elem_of_filter in Hl as [Hid He].
    by exists e. }
  split_and!.
  - unfold mergeEmails. apply length_fmap.
  - done.
  - intros Hnone. apply Forall_forall. intros out Hout.
    destruct (analysis out) as [a|] eqn:Ha; [|done].
    destruct (Hfrom out a Hout Ha) as (e & He & _ & Hae).
    rewrite Forall_forall in Hnone. by rewrite (Hnone e He) in Hae.
  - unfold mergeEmails. apply list_fmap_ext. intros i raw _.
    unfold mergeOne, currentMap. cbn. by rewrite lookup_empty.
Qed.

(** A sync after an analysis keeps the analysis: when the results of the
    analysis have been applied to the working set, a merged record whose
    [id] was in the working set carries what the read of the results
    under that [id] gave, the analysis of the results when the [id] is an
    own property of them, and one whose [id] was not in the working set
    carries none. *)
Theorem analysis_survives_sync (results : ResultObject)
    (emails : list Email) (incoming : list RawEmail) :
  let merged := mergeEmails (applyResult results <$> emails) incoming in
  (∀ i raw a, incoming !! i = Some raw -> id raw ∈ ids emails ->
     own results !! id raw = Some a ->
     ∃ out : Email, merged !! i = Some out ∧ fields out = raw
                    ∧ analysis out = Some (IsAnalysis a))
  ∧ (∀ i raw v, incoming !! i = Some raw -> id raw ∈ ids emails ->
       readResult (id raw) results = Some v ->
       ∃ out : Email, merged !! i = Some out ∧ fields out = raw
                      ∧ analysis out = Some v)
  ∧ (∀ i raw, incoming !! i = Some raw -> id raw ∉ ids emails ->
       ∃ out : Email, merged !! i = Some out ∧ fields out = raw
                      ∧ analysis out = None).
Proof.
  intros merged. subst merged.
  assert (∀ k, filter (fun e : Email => id e = k) (applyResult results <$> emails)
               = applyResult results <$> filter (fun e : Email => id e = k) emails)
    as Hfilter.
  { intros k. induction emails as [|e l IH]; [done|].
    rewrite fmap_cons, !filter_cons, IH. cbn [applyResult fields].
    by case_decide. }
  assert (∀ i raw v, incoming !! i = Some raw -> id raw ∈ ids emails ->
            readResult (id raw) results = Some v ->
            ∃ out : Email,
              mergeEmails (applyResult results <$> emails) incoming !! i
              = Some out ∧ fields out = raw ∧ analysis out = Some v) as Hread.
  { intros i raw v Hi Hin Hres.
    exists (mergeOne (currentMap (applyResult results <$> emails)) raw).
    rewrite mergeEmails_lookup, Hi. split; [done|].
    split; [apply fields_mergeOne|].
    rewrite analysis_mergeOne, currentMap_lookup, Hfilter, fmap_last.
    destruct (last _) as [e|] eqn:Hl.
    - apply last_Some_elem_of, list_elem_of_filter in Hl as [Hid _].
      cbn. by rewrite Hid, Hres.
    - apply last_None in Hl. exfalso.
      apply list_elem_of_fmap in Hin as (e & Hid & He).
      by eapply (filter_nil_not_elem_of _ _ e Hl). }
  split_and!.
  - intros i raw a Hi Hin Hown. apply Hread; [done|done|].
    unfold readResult. by rewrite Hown.
  - done.
  - intros i raw Hi Hnin.
    exists (mergeOne (currentMap (applyResult results <$> emails)) raw).
    rewrite mergeEmails_lookup, Hi. split; [done|].
    split; [apply fields_mergeOne|].
    rewrite analysis_mergeOne, currentMap_lookup, Hfilter, fmap_last.
    destruct (last _) as [e|] eqn:Hl; [|done]. exfalso.
    apply last_Some_elem_of, list_elem_of_filter in Hl as [Hid He].
    apply Hnin. rewrite <- Hid.
    by apply (list_elem_of_fmap_2 (fun e : Email => id e)).
Qed.

Lemma mergeEmails_again (current : list Email) (incoming : list RawEmail) :
  mergeEmails (mergeEmails current incoming) incoming
  = mergeEmails current incoming.
Proof.
  unfold mergeEmails at 1 3. apply list_fmap_ext; intros i raw Hi.
  unfold mergeOne.
  rewrite (currentMap_lookup (mergeEmails current incoming)).
  unfold mergeEmails.
  assert (∀ l : list RawEmail,
            filter (fun e : Email => id e = id raw)
              (mergeOne (currentMap current) <$> l)
            = mergeOne (currentMap current)
                <$> filter (fun r : RawEmail => id r = id raw) l) as ->.
  { induction l as [|r l IH]; [done|].
    rewrite fmap_cons, !filter_cons, fields_mergeOne, IH. by case_decide. }
  rewrite fmap_last.
  destruct (last _) as [r|] eqn:Hlast; cbn.
  - apply last_Some_elem_of, list_elem_of_filter in Hlast as [Hr _].
    by rewrite analysis_mergeOne, Hr.
  - apply last_None in Hlast. apply list_elem_of_lookup_2 in Hi.
    by destruct (filter_nil_not_elem_of _ _ raw Hlast eq_refl).
Qed.

Lemma saveEmails_again (JSON_stringify : list Email -> jsstring)
    (setItemThrows : gmap jsstring jsstring -> jsstring -> jsstring -> bool)
    (emails : list Email) (localStorage : gmap jsstring jsstring) :
  saveEmails JSON_stringify setItemThrows emails
    (saveEmails JSON_stringify setItemThrows emails localStorage)
  = saveEmails JSON_stringify setItemThrows emails localStorage.
Proof.
  unfold saveEmails.
  destruct (setItemThrows localStorage _ _) eqn:Hfirst.
  - by rewrite Hfirst.
  - clear Hfirst. destruct (setItemThrows _ _ _); [done|].
    apply insert_insert_eq.
Qed.

(** [handleSync] always ends with [isSyncing] unset and clears the
    selection exactly when the sync was not the automatic one.  When the
    sync throws, the working set, the local store and the rest of the
    state stay as they were.  When it returns, the working set is the
    merge, with the fields of the synced records, and [db.saveEmails] is
    called on it: the local store holds the written merge under the key
    of the application when [setItem] does not throw and is as it was
    when [setItem] throws, every other key untouched in both cases.  A
    second sync that returns the same records changes nothing more. *)
Theorem handleSync_outcomes (JSON_stringify : list Email -> jsstring)
    (setItemThrows : gmap jsstring jsstring -> jsstring -> jsstring -> bool)
    (isAutoFetch : bool)
    (newRawEmails : Completion (list RawEmail)) (vs : ViewState) :
  let sync := handleSync JSON_stringify setItemThrows in
  let after := sync isAutoFetch newRawEmails vs in
  let store := st_localStorage (vs_app vs) in
  vs_isSyncing after = false
  ∧ vs_selectedThreadId after
    = (if isAutoFetch then vs_selectedThreadId vs else None)
  ∧ (∀ e, newRawEmails = Throw e -> vs_app after = vs_app vs)
  ∧ (∀ raw, newRawEmails = Normal raw ->
       let written := JSON_stringify (st_emails (vs_app after)) in
       st_emails (vs_app after) = mergeEmails (st_emails (vs_app vs)) raw
       ∧ fields <$> st_emails (vs_app after) = raw
       ∧ (setItemThrows store DB_KEY written = false ->
            st_localStorage (vs_app after) = <[DB_KEY := written]> store)
       ∧ (setItemThrows store DB_KEY written = true ->
            st_localStorage (vs_app after) = store)
       ∧ (∀ k, k ≠ DB_KEY -> st_localStorage (vs_app after) !! k = store !! k)
       ∧ st_activeTab (vs_app after) = st_activeTab (vs_app vs)
       ∧ st_alerts (vs_app after) = st_alerts (vs_app vs)
       ∧ ∀ again, vs_app (sync again (Normal raw) after) = vs_app after).
Proof.
  intros sync after store. subst sync after store. unfold handleSync.
  cbn [vs_isSyncing vs_selectedThreadId vs_app]. split_and!; [done|done| |].
  - by intros e ->.
  - intros raw ->. unfold withEmails.
    cbn [st_emails st_localStorage st_activeTab st_alerts vs_app].
    split_and!; try done.
    + apply mergeEmails_fields.
    + unfold saveEmails. by intros ->.
    + unfold saveEmails. by intros ->.
    + intros k Hk. unfold saveEmails.
      destruct (setItemThrows _ _ _); [done|]. by apply lookup_insert_ne.
    + intros again. by rewrite mergeEmails_again, saveEmails_again.
Qed.

(** [handleLoadCache] never touches the local store.  With the result of
    [fetchEmailsFromBackend], which does not throw, the working set
    becomes the merge of the fetched records, and of the mock emails when
    the backend cannot be reached or answers with an error. *)
Theorem load_cache_outcomes (MOCK_EMAILS : list RawEmail)
    (clock : nat -> jsstring) (response : Fetched MessagesBody)
    (st : AppState) :
  let after :=
    handleLoadCache (fetchEmailsFromBackend MOCK_EMAILS clock response) st in
  st_localStorage after = st_localStorage st
  ∧ (∀ l, syncEmailsWithBackend clock response = Normal l ->
       st_emails after = mergeEmails (st_emails st) l
       ∧ fields <$> st_emails after = l)
  ∧ (∀ e, syncEmailsWithBackend clock response = Throw e ->
       st_emails after = mergeEmails (st_emails st) MOCK_EMAILS
       ∧ fields <$> st_emails after = MOCK_EMAILS).
Proof.
  intros after. subst after.
  unfold handleLoadCache, fetchEmailsFromBackend, syncEmailsWithBackend, tryC.
  destruct (readMessages clock response) as [l|e]; cbn; split_and!; try done.
  - intros ? [= <-]. split; [done|apply mergeEmails_fields].
  - intros _ _. split; [done|apply mergeEmails_fields].
Qed.
